(** * Command synchronisation (src/utils/SyncCommands.ts)

    A shallow embedding of [CommandSyncer]: the publishability test, the
    option transformer, the name resolution and the reconciliation of the
    local command modules against the remote command registries, followed by
    the properties of the synchronisation pass. *)

From Stdlib Require Import ZArith String Ascii List Bool Lia.
From stdpp Require Import base gmap strings list.
Import ListNotations.

Local Open Scope string_scope.
Local Open Scope Z_scope.
Local Open Scope list_scope.

Set Warnings "-register-all".

(** ** JavaScript values

    Strings are sequences of code units; numbers are the integers the
    program handles (flags and ids); functions are known by identity. *)

Inductive JsVal : Type :=
| VUndefined
| VNull
| VBool (b : bool)
| VNum (n : Z)
| VStr (s : string)
| VFun (f : nat)
| VError (message : string)
| VArr (items : list JsVal)
| VObj (fields : list (string * JsVal)).

(** An object: its own enumerable properties, in insertion order. *)
Abbreviation JsObj := (list (string * JsVal)).

(** ToBoolean. *)
Definition truthy (v : JsVal) : bool :=
  match v with
  | VUndefined | VNull => false
  | VBool b => b
  | VNum n => negb (n =? 0)
  | VStr s => negb (String.eqb s "")
  | VFun _ | VError _ | VArr _ | VObj _ => true
  end.

(** [v ?? d]. *)
Definition nullish_or (v d : JsVal) : JsVal :=
  match v with
  | VUndefined | VNull => d
  | _ => v
  end.

(** [o.k]: the property, or [undefined]. *)
Fixpoint get (k : string) (o : JsObj) : JsVal :=
  match o with
  | [] => VUndefined
  | (k', v) :: o' => if String.eqb k' k then v else get k o'
  end.

(** [k in o]. *)
Fixpoint has (k : string) (o : JsObj) : bool :=
  match o with
  | [] => false
  | (k', _) :: o' => String.eqb k' k || has k o'
  end.

(** [(({ k, ...rest }) => rest)(o)]: every property but [k], order kept. *)
Fixpoint omit (k : string) (o : JsObj) : JsObj :=
  match o with
  | [] => []
  | (k', v) :: o' => if String.eqb k' k then omit k o' else (k', v) :: omit k o'
  end.

(** ** 32-bit integer operators *)

Definition ToInt32 (z : Z) : Z := (z + 2 ^ 31) mod 2 ^ 32 - 2 ^ 31.

Definition js_and (a b : Z) : Z := Z.land (ToInt32 a) (ToInt32 b).
Definition js_or (a b : Z) : Z := Z.lor (ToInt32 a) (ToInt32 b).
Definition js_not (a : Z) : Z := Z.lnot (ToInt32 a).

(** ** Enumerations of the libraries *)

(** [CommandType] of @sern/handler: one bit per kind, [Both] being
    [Text | Slash]. *)
Module CommandType.
Definition Text : Z := 1.
Definition Slash : Z := 2.
Definition Both : Z := 3.
Definition CtxUser : Z := 4.
Definition CtxMsg : Z := 8.
Definition Button : Z := 16.
Definition StringSelect : Z := 32.
Definition Modal : Z := 64.
Definition ChannelSelect : Z := 256.
Definition MentionableSelect : Z := 512.
Definition RoleSelect : Z := 1024.
Definition UserSelect : Z := 2048.

(** The values the enumeration declares. *)
Definition declared : list Z :=
  [Text; Slash; Both; CtxUser; CtxMsg; Button; StringSelect; Modal;
   ChannelSelect; MentionableSelect; RoleSelect; UserSelect].
End CommandType.

(** [ApplicationCommandType] of discord.js. *)
Inductive ApplicationCommandType : Type := ChatInput | User | Message.

(** ** Command modules *)

(** The fields of a [CommandModule] the syncer reads. *)
Record CommandModule : Type := {
  m_name : option string;
  m_description : option string;
  m_type : Z;
  m_options : option (list JsObj)
}.

(** ** [publishable] *)

Definition publishable (module : CommandModule) : bool :=
  let publishableTypes :=
    js_or (js_or (js_or CommandType.Both CommandType.CtxUser)
                 CommandType.CtxMsg)
          CommandType.Slash in
  negb (js_and (js_and publishableTypes (js_not CommandType.Text))
               (m_type module) =? 0).

(** ** [optionsTransformer] *)

Definition strip_handler (el : JsObj) : JsObj :=
  if truthy (get "autocomplete" el) then omit "command" el else el.

Definition optionsTransformer (module : CommandModule) : option (list JsObj) :=
  if (m_type module =? CommandType.Slash) || (m_type module =? CommandType.Both)
  then Some match m_options module with
            | Some opts => map strip_handler opts
            | None => []
            end
  else None.

(** ** Name resolution *)

Definition is_slash (c : ascii) : bool := Ascii.eqb c "/"%char.

(** [parse(path).base] of node:path (POSIX): the last non-empty component.
    [last] is the latest completed component, [cur] the one being read. *)
Fixpoint base_go (last cur path : string) : string :=
  match path with
  | EmptyString => if String.eqb cur "" then last else cur
  | String c rest =>
      if is_slash c
      then base_go (if String.eqb cur "" then last else cur) "" rest
      else base_go last (cur ++ String c "") rest
  end.

Definition parse_base (path : string) : string := base_go "" "" path.

(** [s.split(sep)[0]] for a one-character separator. *)
Fixpoint before_first (sep : ascii) (s : string) : string :=
  match s with
  | EmptyString => EmptyString
  | String c rest =>
      if Ascii.eqb c sep then EmptyString else String c (before_first sep rest)
  end.

(** [basename(path)] of discord.js, called without an extension. *)
Definition basename (path : string) : string :=
  before_first "?"%char (parse_base path).

(** [s.slice(0, -n)]. *)
Definition slice_0_neg (n : nat) (s : string) : string :=
  String.substring 0 (String.length s - n) s.

(** [module.name ?? basename(path).slice(0, -3)]. *)
Definition resolveName (module : CommandModule) (path : string) : string :=
  match m_name module with
  | Some n => n
  | None => slice_0_neg 3 (basename path)
  end.

(** ** The remote: application and guild command registries *)

(** Where a registry lives: the application (global) or one guild. *)
Inductive Target : Type := GlobalTarget | GuildTarget (guildId : string).

(** The object passed to [commands.create] and [command.edit]; a field
    that is [undefined] is [None]. *)
Record ApplicationCommandData : Type := {
  data_name : option string;
  data_description : option string;
  data_options : option (list JsObj);
  data_type : ApplicationCommandType
}.

(** What a registry holds for one command. *)
Record RemoteEntry : Type := {
  entry_id : N;
  entry_name : string;
  entry_description : string;
  entry_type : ApplicationCommandType;
  entry_options : list JsObj
}.

(** A registered command as [commands.fetch()] returns it: the entry and
    the registry it belongs to ([guildId]). *)
Record ApplicationCommand : Type := {
  cmd_target : Target;
  cmd_entry : RemoteEntry
}.

(** A guild as [guilds.fetch(id)] returns it. *)
Record Guild : Type := { guild_id : string; guild_name : string }.

(** What the remote holds for one guild. *)
Record GuildState : Type := {
  gs_name : string;
  gs_commands : list RemoteEntry
}.

Inductive Request : Type :=
| GuildsFetch (guildId : string)
| CommandsFetch (target : Target)
| CommandsCreate (target : Target) (data : ApplicationCommandData)
| CommandEdit (target : Target) (id : N) (data : ApplicationCommandData).

Inductive Event : Type :=
| Called (r : Request)
| LogDebug (message : string)
| LogInfo (message : string)
| LogError (message : JsVal).

(** The remote and the log. [refuses] is the remote's refusal of a request
    (permissions, validation, transport), with the rejection value;
    [next_id] is the id the remote gives to the next created command;
    [trace] lists the remote calls and log entries made so far, oldest
    first. *)
Record World : Type := {
  application_commands : list RemoteEntry;
  guilds : gmap string GuildState;
  next_id : N;
  refuses : Request -> option JsVal;
  trace : list Event
}.

Definition with_trace (w : World) (t : list Event) : World :=
  {| application_commands := application_commands w; guilds := guilds w;
     next_id := next_id w; refuses := refuses w; trace := t |}.

(** The entries of a registry; [None] when the guild is unknown. *)
Definition registry (w : World) (t : Target) : option (list RemoteEntry) :=
  match t with
  | GlobalTarget => Some (application_commands w)
  | GuildTarget g => gs_commands <$> guilds w !! g
  end.

Definition set_registry (w : World) (t : Target)
    (cmds : list RemoteEntry) (next : N) : World :=
  match t with
  | GlobalTarget =>
      {| application_commands := cmds; guilds := guilds w; next_id := next;
         refuses := refuses w; trace := trace w |}
  | GuildTarget g =>
      {| application_commands := application_commands w;
         guilds := alter (fun gs => {| gs_name := gs_name gs;
                                       gs_commands := cmds |}) g (guilds w);
         next_id := next; refuses := refuses w; trace := trace w |}
  end.

(** ** Promises over the remote *)

Inductive Settled (A : Type) : Type :=
| Fulfilled (a : A)
| Rejected (reason : JsVal).
Arguments Fulfilled {A} a.
Arguments Rejected {A} reason.

Definition Promise (A : Type) : Type := World -> Settled A * World.

Definition resolve {A} (a : A) : Promise A := fun w => (Fulfilled a, w).

Definition reject {A} (e : JsVal) : Promise A := fun w => (Rejected e, w).

(** [const x = await p; k x]. *)
Definition await {A B} (p : Promise A) (k : A -> Promise B) : Promise B :=
  fun w =>
    match p w with
    | (Fulfilled a, w') => k a w'
    | (Rejected e, w') => (Rejected e, w')
    end.

(** [p.catch(h)]. *)
Definition catch {A} (p : Promise A) (h : JsVal -> Promise A) : Promise A :=
  fun w =>
    match p w with
    | (Fulfilled a, w') => (Fulfilled a, w')
    | (Rejected e, w') => h e w'
    end.

Notation "x <- p ;; k" := (await p (fun x => k))
  (at level 100, p at next level, right associativity).
Notation "p ;; k" := (await p (fun _ => k))
  (at level 100, right associativity).

(** [for (const x of xs) await body(x)]. *)
Fixpoint for_of {A} (xs : list A) (body : A -> Promise unit) : Promise unit :=
  match xs with
  | [] => resolve tt
  | x :: xs' => body x ;; for_of xs' body
  end.

Definition emit (e : Event) : Promise unit :=
  fun w => (Fulfilled tt, with_trace w (trace w ++ [e])).

(** A call to the remote: recorded, then refused or served. *)
Definition call {A} (r : Request) (serve : Promise A) : Promise A :=
  emit (Called r) ;;
  fun w => match refuses w r with
           | Some e => (Rejected e, w)
           | None => serve w
           end.

(** ** The calls of the client *)

Definition unknown_guild : JsVal := VError "Unknown Guild".
Definition unknown_command : JsVal := VError "Unknown application command".
Definition invalid_form : JsVal := VError "Invalid Form Body".

(** [client.guilds.fetch(guildId)]. *)
Definition guilds_fetch (guildId : string) : Promise Guild :=
  call (GuildsFetch guildId) (fun w =>
    match guilds w !! guildId with
    | Some gs =>
        (Fulfilled {| guild_id := guildId; guild_name := gs_name gs |}, w)
    | None => (Rejected unknown_guild, w)
    end).

(** [commands.fetch()] on the application or on a guild: every entry. *)
Definition commands_fetch (t : Target) : Promise (list ApplicationCommand) :=
  call (CommandsFetch t) (fun w =>
    match registry w t with
    | Some cmds =>
        (Fulfilled (map (fun e => {| cmd_target := t; cmd_entry := e |}) cmds), w)
    | None => (Rejected unknown_guild, w)
    end).

Definition new_entry (id : N) (n : string) (data : ApplicationCommandData)
    : RemoteEntry :=
  {| entry_id := id; entry_name := n;
     entry_description := default "" (data_description data);
     entry_type := data_type data;
     entry_options := default [] (data_options data) |}.

(** [commands.create(data)]: a new entry, with the next id, is added. *)
Definition commands_create (t : Target) (data : ApplicationCommandData)
    : Promise ApplicationCommand :=
  call (CommandsCreate t data) (fun w =>
    match registry w t, data_name data with
    | Some cmds, Some n =>
        let e := new_entry (next_id w) n data in
        (Fulfilled {| cmd_target := t; cmd_entry := e |},
         set_registry w t (cmds ++ [e]) (N.succ (next_id w)))
    | Some _, None => (Rejected invalid_form, w)
    | None, _ => (Rejected unknown_guild, w)
    end).

(** The entry after an edit: a field the data leaves [undefined] is kept;
    the type of a registered command does not change. *)
Definition edited (data : ApplicationCommandData) (e : RemoteEntry)
    : RemoteEntry :=
  {| entry_id := entry_id e;
     entry_name := default (entry_name e) (data_name data);
     entry_description := default (entry_description e) (data_description data);
     entry_type := entry_type e;
     entry_options := default (entry_options e) (data_options data) |}.

Definition edit_in (id : N) (data : ApplicationCommandData)
    (cmds : list RemoteEntry) : list RemoteEntry :=
  map (fun e => if N.eqb (entry_id e) id then edited data e else e) cmds.

(** [command.edit(data)]: the entry with the command's id, in the
    command's registry, is overwritten. *)
Definition command_edit (c : ApplicationCommand) (data : ApplicationCommandData)
    : Promise ApplicationCommand :=
  let t := cmd_target c in
  let id := entry_id (cmd_entry c) in
  call (CommandEdit t id data) (fun w =>
    match registry w t with
    | Some cmds =>
        match find (fun e => N.eqb (entry_id e) id) cmds with
        | Some e =>
            (Fulfilled {| cmd_target := t; cmd_entry := edited data e |},
             set_registry w t (edit_in id data cmds) (next_id w))
        | None => (Rejected unknown_command, w)
        end
    | None => (Rejected unknown_guild, w)
    end).

(** ** The loader *)

(** What [import("file:///" + path)] gives for a discovered file: the
    default export, or a rejection. *)
Inductive Import : Type :=
| Loaded (module : CommandModule)
| Unloadable (reason : JsVal).

Definition import (i : Import) : Promise CommandModule :=
  match i with
  | Loaded m => resolve m
  | Unloadable e => reject e
  end.

(** A directory entry, with what importing a file gives. *)
Inductive Dirent : Type :=
| File (name : string) (content : Import)
| Directory (name : string) (entries : list Dirent).

(** [path.resolve(dir, name)] for an absolute, normalised [dir]. *)
Definition path_resolve (dir name : string) : string := dir ++ "/" ++ name.

(** What [getFiles] yields for one entry of [dir]: the file itself, or
    the files of the sub-directory, depth first. *)
Fixpoint getFiles_of (dir : string) (dirent : Dirent) : list (string * Import) :=
  let res := path_resolve dir (match dirent with
                               | File name _ | Directory name _ => name
                               end) in
  match dirent with
  | File _ content => [(res, content)]
  | Directory _ entries => flat_map (getFiles_of res) entries
  end.

(** [getFiles(dir)], [dirents] being what [readdir(dir)] lists. *)
Definition getFiles (dir : string) (dirents : list Dirent)
    : list (string * Import) :=
  flat_map (getFiles_of dir) dirents.

(** ** [CommandSyncer] *)

(** Modelled from the spec: the logger of ./Logger is the logging sink, an
    external collaborator; a call to [logger.debug], [logger.info] or
    [logger.error] records its message and returns. *)
Definition logger_debug (message : string) : Promise unit :=
  emit (LogDebug message).
Definition logger_info (message : string) : Promise unit :=
  emit (LogInfo message).
Definition logger_error (message : JsVal) : Promise unit :=
  emit (LogError message).

Definition commandsPath : string := "dist/src/commands".

Section CommandSyncer.

(** The third argument of the constructor; the logger and the client are
    the [World]. *)
Variable scopedGuilds : list string.

Definition debug (message : string) : Promise unit := logger_debug message.

Definition registerGuildCommand (guild : Guild) (resolvedName : string)
    (module : CommandModule) : Promise unit :=
  _ <- commands_create (GuildTarget (guild_id guild))
         {| data_name := Some resolvedName;
            data_description := Some (default ".." (m_description module));
            data_type := ChatInput;
            data_options := optionsTransformer module |} ;;
  debug ("Command " ++ resolvedName ++ " registered to guild "
         ++ guild_name guild ++ " (" ++ guild_id guild ++ ")").

Definition registerGlobalCommand (resolvedName : string)
    (module : CommandModule) : Promise unit :=
  _ <- commands_create GlobalTarget
         {| data_name := Some resolvedName;
            data_description := Some (default ".." (m_description module));
            data_type := ChatInput;
            data_options := optionsTransformer module |} ;;
  debug ("Global command " ++ resolvedName ++ " created.").

Definition updateCommand (registeredCommand : ApplicationCommand)
    (module : CommandModule) (resolvedName : string) : Promise unit :=
  _ <- command_edit registeredCommand
         {| data_name := m_name module;
            data_description := m_description module;
            data_options := optionsTransformer module;
            data_type := ChatInput |} ;;
  debug ("Command " ++ resolvedName ++ " updated").

(** [commands.find((e) => e.name === resolvedName)]. *)
Definition find_by_name (resolvedName : string)
    (commands : list ApplicationCommand) : option ApplicationCommand :=
  find (fun e => String.eqb (entry_name (cmd_entry e)) resolvedName) commands.

Definition handleGlobalCommand (resolvedName : string)
    (module : CommandModule) : Promise unit :=
  debug "Fetching (or retrieving from cache, if available) global commands." ;;
  commands <- commands_fetch GlobalTarget ;;
  match find_by_name resolvedName commands with
  | Some registeredCommand =>
      debug ("Updating global " ++ resolvedName ++ " command.") ;;
      updateCommand registeredCommand module resolvedName
  | None =>
      debug ("Registering global command " ++ resolvedName ++ ".") ;;
      registerGlobalCommand resolvedName module
  end.

(** The body of the loop of [handleScopedGuildsCommand]. *)
Definition handleScopedGuild (resolvedName : string) (module : CommandModule)
    (guildId : string) : Promise unit :=
  guild <- catch (g <- guilds_fetch guildId ;; resolve (Some g))
                 (fun _ => resolve None) ;;
  match guild with
  | None => reject (VError ("Found no Guild with id " ++ guildId ++ "!"))
  | Some guild =>
      debug ("Fetching (or retrieving from cache, if available) guild "
             ++ guild_name guild ++ " (" ++ guild_id guild
             ++ ") commands...") ;;
      commands <- commands_fetch (GuildTarget (guild_id guild)) ;;
      match find_by_name resolvedName commands with
      | Some registeredCommand =>
          debug ("Updating command " ++ resolvedName ++ "...") ;;
          updateCommand registeredCommand module resolvedName
      | None =>
          debug ("Registering " ++ resolvedName ++ " command.") ;;
          registerGuildCommand guild resolvedName module
      end
  end.

Definition handleScopedGuildsCommand (resolvedName : string)
    (module : CommandModule) : Promise unit :=
  for_of scopedGuilds (handleScopedGuild resolvedName module).

Definition handleCommand (module : CommandModule) (resolvedName : string)
    : Promise unit :=
  debug ("Checking if " ++ resolvedName ++ " is already registered") ;;
  match scopedGuilds with
  | _ :: _ => handleScopedGuildsCommand resolvedName module
  | [] => handleGlobalCommand resolvedName module
  end.

(** The body of the loop of [sync], for one discovered file. *)
Definition sync_file (file : string * Import) : Promise unit :=
  module <- import (snd file) ;;
  if publishable module
  then handleCommand module (resolveName module (fst file))
  else resolve tt.

(** [sync()], [files] being what [getFiles(this.commandsPath)] yields. *)
Definition sync (files : list (string * Import)) : Promise unit :=
  logger_info "Syncing commands" ;;
  for_of files sync_file.

(** The promise chain the constructor starts. *)
Definition CommandSyncer (files : list (string * Import)) : Promise unit :=
  catch (sync files)
        (fun e => logger_error
                    (nullish_or e (VStr "Something went wrong with syncing"))) ;;
  logger_info "Commands synced successfully".

End CommandSyncer.


(** ** Vocabulary of the properties *)

(** [s.includes(c)]. *)
Fixpoint contains (c : ascii) (s : string) : bool :=
  match s with
  | EmptyString => false
  | String c' rest => Ascii.eqb c' c || contains c rest
  end.

(** A base name without its extension: what precedes its last dot, a
    leading dot apart. *)
Fixpoint drop_extension (s : string) : string :=
  match s with
  | EmptyString => EmptyString
  | String c rest =>
      if contains "."%char rest then String c (drop_extension rest)
      else if Ascii.eqb c "."%char then EmptyString
      else s
  end.

Definition without_extension (base : string) : string :=
  match base with
  | EmptyString => EmptyString
  | String c rest => String c (drop_extension rest)
  end.

(** The remote calls among the events, in order. *)
Definition calls (evs : list Event) : list Request :=
  flat_map (fun e => match e with Called r => [r] | _ => [] end) evs.

(** What a call does and where, the data left out. *)
Inductive Kind : Type :=
| KGuild (guildId : string)
| KFetch (t : Target)
| KCreate (t : Target)
| KEdit (t : Target).

Definition kind (r : Request) : Kind :=
  match r with
  | GuildsFetch g => KGuild g
  | CommandsFetch t => KFetch t
  | CommandsCreate t _ => KCreate t
  | CommandEdit t _ _ => KEdit t
  end.

Definition kinds (evs : list Event) : list Kind := map kind (calls evs).

#[global] Instance Target_eq_dec : EqDecision Target.
Proof. solve_decision. Defined.

#[global] Instance Kind_eq_dec : EqDecision Kind.
Proof. solve_decision. Defined.

(** How many calls of kind [k] there are among [ks]. *)
Definition count (k : Kind) (ks : list Kind) : nat :=
  length (filter (fun k' => k' = k) ks).

(** The registries a pass works on: the application's, or one per scoped
    guild, in order. *)
Definition targets (scopedGuilds : list string) : list Target :=
  match scopedGuilds with
  | [] => [GlobalTarget]
  | _ :: _ => map GuildTarget scopedGuilds
  end.

Inductive Op : Type := Create | Edit.

Definition write (op : Op) (t : Target) : Kind :=
  match op with Create => KCreate t | Edit => KEdit t end.

(** The calls that reconcile one definition against one registry: the
    guild is resolved, the registry is fetched, the entry is created or
    edited. *)
Definition reconciliation (d : Target * Op) : list Kind :=
  match fst d with
  | GlobalTarget => []
  | GuildTarget g => [KGuild g]
  end ++ [KFetch (fst d); write (snd d) (fst d)].

(** The modules of the discovered files that are published. *)
Definition published (files : list (string * Import)) : list (string * CommandModule) :=
  flat_map (fun f => match snd f with
                     | Loaded m => if publishable m then [(fst f, m)] else []
                     | Unloadable _ => []
                     end) files.

(** The world with further events recorded. *)
Definition record (w : World) (evs : list Event) : World :=
  with_trace w (trace w ++ evs).

(** [e.name === n] on a registry entry. *)
Definition by_name (n : string) (e : RemoteEntry) : bool :=
  String.eqb (entry_name e) n.

(** The object [registerGlobalCommand] and [registerGuildCommand] pass to
    [create]. *)
Definition create_data (n : string) (m : CommandModule) : ApplicationCommandData :=
  {| data_name := Some n;
     data_description := Some (default ".." (m_description m));
     data_options := optionsTransformer m;
     data_type := ChatInput |}.

(** The object [updateCommand] passes to [edit]. *)
Definition edit_data (m : CommandModule) : ApplicationCommandData :=
  {| data_name := m_name m;
     data_description := m_description m;
     data_options := optionsTransformer m;
     data_type := ChatInput |}.

(** The create or edit a definition named [n] leads to on the registry [t]
    holding [cmds]. *)
Definition write_request (t : Target) (n : string) (m : CommandModule)
    (cmds : list RemoteEntry) : Request :=
  match find (by_name n) cmds with
  | Some e => CommandEdit t (entry_id e) (edit_data m)
  | None => CommandsCreate t (create_data n m)
  end.

(** The remote once that call is served. *)
Definition after_write (t : Target) (n : string) (m : CommandModule)
    (w : World) (cmds : list RemoteEntry) : World :=
  match find (by_name n) cmds with
  | Some e =>
      set_registry w t (edit_in (entry_id e) (edit_data m) cmds) (next_id w)
  | None =>
      set_registry w t (cmds ++ [new_entry (next_id w) n (create_data n m)])
                   (N.succ (next_id w))
  end.

(** The guild [guilds.fetch(g).catch(() => null)] gives, if any. *)
Definition resolved_guild (w : World) (g : string) : option GuildState :=
  match refuses w (GuildsFetch g) with
  | Some _ => None
  | None => guilds w !! g
  end.

Definition no_guild (g : string) : JsVal :=
  VError ("Found no Guild with id " ++ g ++ "!").

(** Whether the definition named [n] is created or edited on a registry
    holding [cmds]. *)
Definition op_of (n : string) (cmds : list RemoteEntry) : Op :=
  match find (by_name n) cmds with
  | Some _ => Edit
  | None => Create
  end.

(** How many times [t] occurs among [ts]. *)
Definition occurrences (t : Target) (ts : list Target) : nat :=
  length (filter (fun t' => t' = t) ts).

(** The registries a pass reconciles, in order: those of its targets, once
    per published module. *)
Definition plan (scopedGuilds : list string) (files : list (string * Import))
    : list Target :=
  flat_map (fun _ => targets scopedGuilds) (published files).

(** ** Sample modules, files and remotes *)

Definition slash (n : option string) : CommandModule :=
  {| m_name := n; m_description := None; m_type := CommandType.Slash;
     m_options := None |}.

Definition ping_js : string * Import :=
  ("/srv/bot/dist/src/commands/ping.js", Loaded (slash None)).

Definition ban_js : string * Import :=
  ("/srv/bot/dist/src/commands/ban.js", Loaded (slash (Some "ban"))).

(** A remote without commands or guilds that accepts every call. *)
Definition empty_remote : World :=
  {| application_commands := []; guilds := ∅; next_id := 1%N;
     refuses := fun _ => None; trace := [] |}.

Definition missing_access : JsVal := VError "Missing Access".

(** A remote that refuses to create a command named "ping". *)
Definition remote_refusing_ping : World :=
  {| application_commands := []; guilds := ∅; next_id := 1%N;
     refuses := fun r =>
       match r with
       | CommandsCreate _ data =>
           match data_name data with
           | Some n => if String.eqb n "ping" then Some missing_access else None
           | None => None
           end
       | _ => None
       end;
     trace := [] |}.

(** A remote that knows the guild "g2" only. *)
Definition remote_with_g2 : World :=
  {| application_commands := [];
     guilds := {[ "g2" := {| gs_name := "Guild two"; gs_commands := [] |} ]};
     next_id := 1%N; refuses := fun _ => None; trace := [] |}.

(** A remote that knows the guilds "g1" and "g2". *)
Definition remote_with_g1_g2 : World :=
  {| application_commands := [];
     guilds := {[ "g1" := {| gs_name := "Guild one"; gs_commands := [] |};
                  "g2" := {| gs_name := "Guild two"; gs_commands := [] |} ]};
     next_id := 1%N; refuses := fun _ => None; trace := [] |}.

(** A user context-menu module. *)
Definition user_info : CommandModule :=
  {| m_name := Some "User Info"; m_description := None;
     m_type := CommandType.CtxUser; m_options := None |}.

(** A remote whose global registry already holds "ping". *)
Definition remote_with_ping : World :=
  {| application_commands :=
       [{| entry_id := 7%N; entry_name := "ping";
           entry_description := "Replies with pong";
           entry_type := ChatInput; entry_options := [] |}];
     guilds := ∅; next_id := 8%N; refuses := fun _ => None; trace := [] |}.

(** The remote type of a kind, as the specification words it: chat-input
    for Slash and Both, message for ContextMenuMessage, user for
    ContextMenuUser. *)
Definition spec_remote_type (kind : Z) : option ApplicationCommandType :=
  if kind =? CommandType.Slash then Some ChatInput
  else if kind =? CommandType.Both then Some ChatInput
  else if kind =? CommandType.CtxMsg then Some Message
  else if kind =? CommandType.CtxUser then Some User
  else None.

(** The reconciliation of one definition against one target: the global
    handler, or the body of the scoped loop. *)
Definition reconcile_on (t : Target) (n : string) (m : CommandModule)
    : Promise unit :=
  match t with
  | GlobalTarget => handleGlobalCommand n m
  | GuildTarget g => handleScopedGuild n m g
  end.

(** The entries the handler finds on a target it can reach. *)
Definition reachable (w : World) (t : Target) : option (list RemoteEntry) :=
  match t with
  | GlobalTarget => Some (application_commands w)
  | GuildTarget g => gs_commands <$> resolved_guild w g
  end.

(** The calls that precede the fetch of a target's entries. *)
Definition resolution (t : Target) : list Request :=
  match t with
  | GlobalTarget => []
  | GuildTarget g => [GuildsFetch g]
  end.

(** ** Well-formed remotes *)

(** The remote refuses no call. *)
Definition accepting (w : World) : Prop := forall r, refuses w r = None.

(** The ids of a registry are distinct and were given before [next]. *)
Definition well_formed_registry (next : N) (cmds : list RemoteEntry) : Prop :=
  List.NoDup (map entry_id cmds) /\
  List.Forall (fun e => (entry_id e < next)%N) cmds.

Definition well_formed (w : World) : Prop :=
  forall t cmds, registry w t = Some cmds ->
                 well_formed_registry (next_id w) cmds.

(** The registry [t] holds an entry named [n]. *)
Definition has_name (w : World) (t : Target) (n : string) : Prop :=
  exists cmds, registry w t = Some cmds /\ In n (map entry_name cmds).

(** The registries of [w'] hold the names those of [w] hold, in order. *)
Definition same_names (w w' : World) : Prop :=
  forall t, map entry_name <$> registry w' t = map entry_name <$> registry w t.

(** The entries of a registry holding [cmds] once the definition named [n]
    is written to it. *)
Definition entries_after_write (n : string) (m : CommandModule) (next : N)
    (cmds : list RemoteEntry) : list RemoteEntry :=
  match find (by_name n) cmds with
  | Some e => edit_in (entry_id e) (edit_data m) cmds
  | None => cmds ++ [new_entry next n (create_data n m)]
  end.

(** Every discovered file loads. *)
Definition all_loaded (files : list (string * Import)) : Prop :=
  List.Forall (fun f => exists m, snd f = Loaded m) files.

(** The remote accepts every call and is well formed. *)
Definition sound (w : World) : Prop := accepting w /\ well_formed w.

(** The registries of [w'] hold the names those of [w] hold. *)
Definition grows (w w' : World) : Prop :=
  forall t n, has_name w t n -> has_name w' t n.

(** The name [n] is the resolved name of [m]: its own name, if it has one. *)
Definition resolved (m : CommandModule) (n : string) : Prop :=
  m_name m = None \/ m_name m = Some n.

(** A text-only module. *)
Definition text_only : CommandModule :=
  {| m_name := Some "say"; m_description := None;
     m_type := CommandType.Text; m_options := None |}.

(** A module whose kind is no declared [CommandType]. *)
Definition unknown_kind : CommandModule :=
  {| m_name := Some "odd"; m_description := None;
     m_type := 6; m_options := None |}.

Definition handler : JsVal := VObj [("onEvent", VArr []); ("execute", VFun 0)].

(** A slash module with an autocomplete option and a plain one. *)
Definition search : CommandModule :=
  {| m_name := Some "search"; m_description := Some "Searches the docs";
     m_type := CommandType.Slash;
     m_options :=
       Some [[("name", VStr "query"); ("type", VNum 3);
              ("autocomplete", VBool true); ("command", handler)];
             [("name", VStr "limit"); ("type", VNum 4);
              ("required", VBool false)]] |}.

(** A slash module whose option has a handler but no autocomplete flag. *)
Definition unflagged : CommandModule :=
  {| m_name := Some "lookup"; m_description := None;
     m_type := CommandType.Slash;
     m_options :=
       Some [[("name", VStr "query"); ("type", VNum 3);
              ("command", handler)]] |}.

(** The module with its options replaced. *)
Definition with_options (m : CommandModule) (opts : option (list JsObj))
    : CommandModule :=
  {| m_name := m_name m; m_description := m_description m;
     m_type := m_type m; m_options := opts |}.

(** The module with its kind replaced. *)
Definition with_type (m : CommandModule) (kind : Z) : CommandModule :=
  {| m_name := m_name m; m_description := m_description m;
     m_type := kind; m_options := m_options m |}.

(** ** Directory trees *)

(** Induction on directory trees. *)
Fixpoint Dirent_tree_ind (P : Dirent -> Prop)
    (HFile : forall name content, P (File name content))
    (HDirectory : forall name entries,
        List.Forall P entries -> P (Directory name entries))
    (dirent : Dirent) : P dirent :=
  match dirent with
  | File name content => HFile name content
  | Directory name entries =>
      HDirectory name entries
        ((fix all (ds : list Dirent) : List.Forall P ds :=
            match ds with
            | [] => @List.Forall_nil Dirent P
            | d :: ds' =>
                @List.Forall_cons Dirent P d ds'
                  (Dirent_tree_ind P HFile HDirectory d) (all ds')
            end) entries)
  end.

(** The files of a tree, depth first, each with its own name. *)
Fixpoint files_of (dirent : Dirent) : list (string * Import) :=
  match dirent with
  | File name content => [(name, content)]
  | Directory _ entries => flat_map files_of entries
  end.

(** A file name of the file system: not empty, without a slash. *)
Definition file_name (name : string) : bool :=
  negb (String.eqb name "") && negb (contains "/"%char name).

(** Every file of the tree has a file name. *)
Fixpoint files_named (dirent : Dirent) : bool :=
  match dirent with
  | File name _ => file_name name
  | Directory _ entries => forallb files_named entries
  end.

(** A tree with a command file in a sub-directory and an empty directory. *)
Definition commands_tree : list Dirent :=
  [Directory "misc" [File "ping.js" (Loaded (slash None))];
   Directory "empty" [];
   File "ban.js" (Loaded (slash (Some "ban")))].

(** ** Targets of the calls *)

(** The registry, or the guild, a call is about. *)
Definition request_target (r : Request) : Target :=
  match r with
  | GuildsFetch g => GuildTarget g
  | CommandsFetch t => t
  | CommandsCreate t _ => t
  | CommandEdit t _ _ => t
  end.

(** The files a pass has something to do for: those that do not load and
    those whose module is publishable. *)
Definition relevant (file : string * Import) : bool :=
  match snd file with
  | Loaded m => publishable m
  | Unloadable _ => true
  end.

(** A remote with one command in the global registry and one in the guild
    "g2". *)
Definition remote_with_commands : World :=
  {| application_commands :=
       [{| entry_id := 7%N; entry_name := "old";
           entry_description := "No longer in the sources";
           entry_type := ChatInput; entry_options := [] |}];
     guilds :=
       {[ "g2" := {| gs_name := "Guild two";
                     gs_commands :=
                       [{| entry_id := 8%N; entry_name := "ping";
                           entry_description := "Replies with pong";
                           entry_type := ChatInput; entry_options := [] |}] |} ]};
     next_id := 9%N; refuses := fun _ => None; trace := [] |}.

(** A remote that knows the guild "g2" and refuses, with its own reason, to
    resolve any guild. *)
Definition remote_hiding_guilds : World :=
  {| application_commands := [];
     guilds := {[ "g2" := {| gs_name := "Guild two"; gs_commands := [] |} ]};
     next_id := 1%N;
     refuses := fun r => match r with
                         | GuildsFetch _ => Some missing_access
                         | _ => None
                         end;
     trace := [] |}.

(** A remote that refuses to list the commands of any registry. *)
Definition remote_refusing_fetch : World :=
  {| application_commands := []; guilds := ∅; next_id := 1%N;
     refuses := fun r => match r with
                         | CommandsFetch _ => Some missing_access
                         | _ => None
                         end;
     trace := [] |}.

(** A file that does not load. *)
Definition broken_js : string * Import :=
  ("/srv/bot/dist/src/commands/broken.js",
   Unloadable (VError "Unexpected token")).

(** A second file named "ping.js", in another directory. *)
Definition other_ping_js : string * Import :=
  ("/srv/bot/dist/src/commands/fun/ping.js",
   Loaded {| m_name := None; m_description := Some "Pong, for fun";
             m_type := CommandType.Slash; m_options := None |}).

(** A remote whose global registry holds two commands named "ping". *)
Definition remote_with_two_pings : World :=
  {| application_commands :=
       [{| entry_id := 3%N; entry_name := "help";
           entry_description := "Shows the commands";
           entry_type := ChatInput; entry_options := [] |};
        {| entry_id := 5%N; entry_name := "ping";
           entry_description := "Replies with pong";
           entry_type := ChatInput; entry_options := [] |};
        {| entry_id := 6%N; entry_name := "ping";
           entry_description := "Another pong";
           entry_type := ChatInput; entry_options := [] |}];
     guilds := ∅; next_id := 7%N; refuses := fun _ => None; trace := [] |}.
(** * Properties *)

Import CommandType.

Lemma land_14_mod (x : Z) : Z.land 14 x = Z.land 14 (x mod 16).
Proof.
  change 16 with (2 ^ 4). rewrite <- Z.land_ones by lia.
  rewrite (Z.land_comm x), Z.land_assoc. reflexivity.
Qed.

Lemma ToInt32_mod_16 (t : Z) : ToInt32 t mod 16 = t mod 16.
Proof.
  unfold ToInt32.
  pose proof (Z.div_mod (t + 2 ^ 31) (2 ^ 32) ltac:(lia)) as H.
  replace ((t + 2 ^ 31) mod 2 ^ 32 - 2 ^ 31)
    with (t + (- 2 ^ 28 * ((t + 2 ^ 31) / 2 ^ 32)) * 16) by lia.
  apply Z.mod_add. lia.
Qed.

Lemma publishable_mask (module : CommandModule) :
  publishable module = negb (Z.land 14 (m_type module) =? 0).
Proof.
  unfold publishable, js_and.
  change (ToInt32 (Z.land _ _)) with 14.
  rewrite land_14_mod, ToInt32_mod_16, <- land_14_mod. reflexivity.
Qed.

#[local] Arguments publishable : simpl never.

Lemma sync_file_loaded (sg : list string) (path : string) (m : CommandModule)
    (w : World) :
  sync_file sg (path, Loaded m) w
  = if publishable m then handleCommand sg m (resolveName m path) w
    else (Fulfilled tt, w).
Proof.
  change (sync_file sg (path, Loaded m) w)
    with ((if publishable m then handleCommand sg m (resolveName m path)
           else resolve tt) w).
  destruct (publishable m); reflexivity.
Qed.

Lemma sync_file_unloadable (sg : list string) (path : string) (e : JsVal)
    (w : World) :
  sync_file sg (path, Unloadable e) w = (Rejected e, w).
Proof. reflexivity. Qed.

Lemma published_loaded (path : string) (m : CommandModule) :
  published [(path, Loaded m)] = if publishable m then [(path, m)] else [].
Proof.
  change (published [(path, Loaded m)])
    with ((if publishable m then [(path, m)] else []) ++ []).
  apply app_nil_r.
Qed.

Lemma plan_loaded (sg : list string) (path : string) (m : CommandModule) :
  plan sg [(path, Loaded m)] = if publishable m then targets sg else [].
Proof.
  unfold plan. rewrite published_loaded.
  destruct (publishable m); [apply app_nil_r | reflexivity].
Qed.

Lemma plan_unloadable (sg : list string) (path : string) (e : JsVal) :
  plan sg [(path, Unloadable e)] = [].
Proof. reflexivity. Qed.

Lemma sync_file_not_publishable sg path module w :
  publishable module = false ->
  sync_file sg (path, Loaded module) w = (Fulfilled tt, w).
Proof. intros H. rewrite sync_file_loaded, H. reflexivity. Qed.

(** C7, as amended. [publishable] depends on the kind only and is a mask
    test: it is true exactly when the kind shares a bit with
    Slash | CtxUser | CtxMsg. On the kinds [CommandType] declares that is
    exactly Slash, Both, CtxUser and CtxMsg, so Text is not publishable,
    and neither is any kind without one of these bits; a kind outside the
    enumeration that has one of them is publishable. A file whose module is
    not publishable is passed over: no call is made and nothing is
    logged. *)
Theorem publishable_is_mask_test
    (scopedGuilds : list string) (module : CommandModule) (path : string)
    (w : World) :
  (publishable module = true <->
   Z.land (m_type module) (Z.lor Slash (Z.lor CtxUser CtxMsg)) <> 0) /\
  (In (m_type module) CommandType.declared ->
   (publishable module = true <->
    In (m_type module) [Slash; Both; CtxUser; CtxMsg])) /\
  (publishable module = false ->
   sync_file scopedGuilds (path, Loaded module) w = (Fulfilled tt, w)).
Proof.
  split; [|split].
  - rewrite publishable_mask, Z.land_comm. change (Z.lor _ _) with 14.
    rewrite negb_true_iff, Z.eqb_neq. reflexivity.
  - intros Hd. rewrite publishable_mask.
    unfold CommandType.declared in Hd. simpl in Hd.
    repeat (destruct Hd as [<- | Hd]; [vm_compute; intuition congruence|]).
    destruct Hd.
  - apply sync_file_not_publishable.
Qed.

Lemma publishable_is_mask_test_witness :
  In (m_type text_only) CommandType.declared /\
  publishable text_only = false /\
  (publishable text_only = true <->
   In (m_type text_only) [Slash; Both; CtxUser; CtxMsg]) /\
  sync_file [] ("/srv/bot/dist/src/commands/say.js"%string, Loaded text_only)
    empty_remote
  = (Fulfilled tt, empty_remote).
Proof.
  destruct (publishable_is_mask_test
              [] text_only "/srv/bot/dist/src/commands/say.js" empty_remote)
    as (_ & Hdeclared & Hskip).
  assert (In (m_type text_only) CommandType.declared) as Hd
      by (left; reflexivity).
  assert (publishable text_only = false) as Hp by reflexivity.
  exact (conj Hd (conj Hp (conj (Hdeclared Hd) (Hskip Hp)))).
Defined.

(** C7, as stated, fails on a kind outside the enumeration: the kind 6 is
    none of Slash, Both, CtxUser and CtxMsg, and is publishable. *)
Lemma unknown_kind_is_publishable :
  ~ In (m_type unknown_kind) CommandType.declared /\
  publishable unknown_kind = true /\
  ~ (publishable unknown_kind = true <->
     In (m_type unknown_kind) [Slash; Both; CtxUser; CtxMsg]).
Proof.
  split; [|split].
  - vm_compute. intuition discriminate.
  - reflexivity.
  - intros [H _]. specialize (H eq_refl). vm_compute in H.
    intuition discriminate.
Qed.

(** ** Objects *)

Lemma has_omit_same (k : string) (o : JsObj) : has k (omit k o) = false.
Proof.
  induction o as [|[k' v] o IH]; simpl; [reflexivity|].
  destruct (String.eqb k' k) eqn:E; simpl; [exact IH|].
  rewrite E. exact IH.
Qed.

Lemma get_omit_other (k k' : string) (o : JsObj) :
  k' <> k -> get k' (omit k o) = get k' o.
Proof.
  intros Hne. induction o as [|[k0 v] o IH]; simpl; [reflexivity|].
  destruct (String.eqb k0 k) eqn:E; simpl.
  - apply String.eqb_eq in E. subst k0.
    destruct (String.eqb k k') eqn:E'; [|exact IH].
    apply String.eqb_eq in E'. congruence.
  - rewrite IH. reflexivity.
Qed.

Lemma has_omit_other (k k' : string) (o : JsObj) :
  k' <> k -> has k' (omit k o) = has k' o.
Proof.
  intros Hne. induction o as [|[k0 v] o IH]; simpl; [reflexivity|].
  destruct (String.eqb k0 k) eqn:E; simpl.
  - apply String.eqb_eq in E. subst k0.
    destruct (String.eqb k k') eqn:E'; [|exact IH].
    apply String.eqb_eq in E'. congruence.
  - rewrite IH. reflexivity.
Qed.

Lemma lookup_map {A B} (f : A -> B) (l : list A) (i : nat) (x : A) :
  l !! i = Some x -> map f l !! i = Some (f x).
Proof.
  revert i. induction l as [|a l IH]; intros [|i] H; simpl in *;
    try discriminate.
  - congruence.
  - apply IH. exact H.
Qed.

(** C6, as amended. For the kinds Slash and Both the transformer returns
    the definition's options in their order (none when the definition has
    none): an option whose autocomplete flag is truthy is returned without
    its handler field "command", its other fields unchanged; any other
    option is returned as it is, a handler field included. For the kinds
    CtxUser and CtxMsg it returns nothing. *)
Theorem optionsTransformer_strips_flagged (module : CommandModule) :
  let opts := default [] (m_options module) in
  (m_type module = Slash \/ m_type module = Both ->
   exists out,
     optionsTransformer module = Some out /\
     length out = length opts /\
     forall (i : nat) (el : JsObj), opts !! i = Some el ->
       exists el', out !! i = Some el' /\
         if truthy (get "autocomplete" el)
         then el' = omit "command" el /\
              has "command" el' = false /\
              forall k, k <> "command"%string ->
                        get k el' = get k el /\ has k el' = has k el
         else el' = el) /\
  (m_type module = CtxUser \/ m_type module = CtxMsg ->
   optionsTransformer module = None).
Proof.
  intros opts. split.
  - intros Hk. exists (map strip_handler opts). split; [|split].
    + unfold optionsTransformer, opts.
      destruct Hk as [-> | ->]; simpl; destruct (m_options module); reflexivity.
    + apply length_map.
    + intros i el Hi. exists (strip_handler el). split.
      * apply lookup_map. exact Hi.
      * unfold strip_handler. destruct (truthy (get "autocomplete" el)); [|reflexivity].
        split; [reflexivity|]. split; [apply has_omit_same|].
        intros k Hk'. split; [apply get_omit_other | apply has_omit_other]; exact Hk'.
  - unfold optionsTransformer. intros [-> | ->]; reflexivity.
Qed.

Lemma optionsTransformer_strips_flagged_witness :
  (exists out,
     optionsTransformer search = Some out /\
     length out = length (default [] (m_options search)) /\
     forall (i : nat) (el : JsObj),
       default [] (m_options search) !! i = Some el ->
       exists el', out !! i = Some el' /\
         if truthy (get "autocomplete" el)
         then el' = omit "command" el /\
              has "command" el' = false /\
              forall k, k <> "command"%string ->
                        get k el' = get k el /\ has k el' = has k el
         else el' = el) /\
  optionsTransformer user_info = None.
Proof.
  split.
  - apply (optionsTransformer_strips_flagged search). left. reflexivity.
  - apply (optionsTransformer_strips_flagged user_info). left. reflexivity.
Defined.

(** C6, as stated, fails on an option that has the handler field and no
    autocomplete flag: it is returned with the handler. *)
Lemma unflagged_handler_is_kept :
  m_type unflagged = Slash /\
  Forall (fun el => has "command" el = true) (default [] (m_options unflagged)) /\
  exists out,
    optionsTransformer unflagged = Some out /\
    Forall (fun el' => has "command" el' = true) out.
Proof.
  split; [reflexivity|]. split.
  - repeat constructor.
  - eexists. split; [reflexivity|]. repeat constructor.
Qed.

(** ** Names *)

Lemma append_cons (x : ascii) (a b : string) :
  (String x a ++ b)%string = String x (a ++ b).
Proof. reflexivity. Qed.

Lemma append_nil_l (a : string) : ("" ++ a)%string = a.
Proof. reflexivity. Qed.

Lemma append_assoc (a b c : string) : ((a ++ b) ++ c = a ++ (b ++ c))%string.
Proof.
  induction a as [|x a IH]; [reflexivity|].
  rewrite !append_cons, IH. reflexivity.
Qed.

Lemma append_nil_r (a : string) : (a ++ "")%string = a.
Proof.
  induction a as [|x a IH]; [reflexivity|]. rewrite append_cons, IH. reflexivity.
Qed.

Lemma contains_append (c : ascii) (a b : string) :
  contains c (a ++ b) = contains c a || contains c b.
Proof.
  induction a as [|x a IH]; [reflexivity|].
  rewrite append_cons. simpl. rewrite IH, orb_assoc. reflexivity.
Qed.

Lemma length_append (a b : string) :
  String.length (a ++ b) = (String.length a + String.length b)%nat.
Proof.
  induction a as [|x a IH]; [reflexivity|].
  rewrite append_cons. simpl. rewrite IH. reflexivity.
Qed.

Lemma base_go_component (f last cur : string) :
  contains "/"%char f = false ->
  base_go last cur f
  = if String.eqb (cur ++ f) "" then last else (cur ++ f)%string.
Proof.
  revert cur. induction f as [|c f IH]; intros cur H; simpl in *.
  - rewrite append_nil_r. reflexivity.
  - apply orb_false_iff in H as [Hc Hf]. unfold is_slash. rewrite Hc.
    rewrite IH by exact Hf. rewrite append_assoc, append_cons, append_nil_l.
    reflexivity.
Qed.

Lemma base_go_last_component (prefix f last cur : string) :
  contains "/"%char f = false -> f <> ""%string ->
  base_go last cur (prefix ++ "/" ++ f) = f.
Proof.
  intros Hf Hne. revert last cur.
  induction prefix as [|c p IH]; intros last cur.
  - rewrite append_nil_l, append_cons, append_nil_l. simpl.
    rewrite base_go_component by exact Hf. rewrite append_nil_l.
    destruct f; [congruence | reflexivity].
  - rewrite append_cons. simpl. destruct (is_slash c); apply IH.
Qed.

Lemma parse_base_file (prefix f : string) :
  (prefix = ""%string \/ exists dir, prefix = (dir ++ "/")%string) ->
  contains "/"%char f = false -> f <> ""%string ->
  parse_base (prefix ++ f) = f.
Proof.
  intros [-> | [dir ->]] Hf Hne; unfold parse_base.
  - rewrite append_nil_l, base_go_component by exact Hf. rewrite append_nil_l.
    destruct f; [congruence | reflexivity].
  - rewrite append_assoc. apply base_go_last_component; assumption.
Qed.

Lemma before_first_absent (c : ascii) (s : string) :
  contains c s = false -> before_first c s = s.
Proof.
  induction s as [|x s IH]; simpl; [reflexivity|].
  intros H. apply orb_false_iff in H as [H1 H2].
  rewrite H1, IH by exact H2. reflexivity.
Qed.

Lemma substring_0_length (a b : string) :
  String.substring 0 (String.length a) (a ++ b) = a.
Proof.
  induction a as [|x a IH].
  - rewrite append_nil_l. destruct b; reflexivity.
  - rewrite append_cons. simpl. rewrite IH. reflexivity.
Qed.

Lemma slice_0_neg_suffix (n : nat) (a b : string) :
  String.length b = n -> slice_0_neg n (a ++ b) = a.
Proof.
  intros H. unfold slice_0_neg. rewrite length_append, H.
  replace (String.length a + n - n)%nat with (String.length a) by lia.
  apply substring_0_length.
Qed.

(** C9, as amended. Without an explicit name, the name used for lookup and
    registration is the base name of the file's path without its last three
    characters: for a file [stem ++ ext] whose extension [ext] is three
    characters long, the dot included (such as ".js"), it is [stem]. *)
Theorem resolveName_drops_three_characters
    (module : CommandModule) (prefix stem ext : string) :
  m_name module = None ->
  (prefix = ""%string \/ exists dir, prefix = (dir ++ "/")%string) ->
  contains "/"%char (stem ++ ext) = false ->
  contains "?"%char (stem ++ ext) = false ->
  String.length ext = 3%nat ->
  resolveName module (prefix ++ stem ++ ext) = stem.
Proof.
  intros Hn Hp Hs Hq He. unfold resolveName, basename. rewrite Hn.
  rewrite parse_base_file; [|exact Hp|exact Hs|].
  - rewrite before_first_absent by exact Hq.
    apply slice_0_neg_suffix. exact He.
  - intros E. apply (f_equal String.length) in E.
    rewrite length_append, He in E. simpl in E. lia.
Qed.

Lemma resolveName_drops_three_characters_witness :
  resolveName {| m_name := None; m_description := None;
                 m_type := Slash; m_options := None |}
              "/srv/bot/dist/src/commands/misc/ping.js" = "ping"%string.
Proof.
  apply (resolveName_drops_three_characters _
           "/srv/bot/dist/src/commands/misc/" "ping" ".js").
  - reflexivity.
  - right. exists "/srv/bot/dist/src/commands/misc"%string. reflexivity.
  - reflexivity.
  - reflexivity.
  - reflexivity.
Defined.

(** C9, as stated, fails on a file whose extension is not three characters
    long: for "ping.mjs" the resolved name is "ping.", not the base name
    without its extension. *)
Lemma resolveName_mjs_keeps_dot :
  let module := {| m_name := None; m_description := None;
                   m_type := Slash; m_options := None |} in
  let path := "/srv/bot/dist/src/commands/ping.mjs"%string in
  resolveName module path = "ping."%string /\
  without_extension (basename path) = "ping"%string /\
  resolveName module path <> without_extension (basename path).
Proof. repeat split. discriminate. Qed.

(** ** Running the calls *)

Lemma kinds_app (a b : list Event) : kinds (a ++ b) = kinds a ++ kinds b.
Proof. unfold kinds, calls. rewrite flat_map_app, map_app. reflexivity. Qed.

Lemma find_by_name_map (t : Target) (n : string) (cmds : list RemoteEntry) :
  find_by_name n (map (fun e => {| cmd_target := t; cmd_entry := e |}) cmds)
  = (fun e => {| cmd_target := t; cmd_entry := e |}) <$> find (by_name n) cmds.
Proof.
  unfold find_by_name. induction cmds as [|e cmds IH]; simpl; [reflexivity|].
  unfold by_name at 1. destruct (String.eqb (entry_name e) n); [reflexivity|].
  exact IH.
Qed.

Lemma find_by_name_id (n : string) (cmds : list RemoteEntry) (e : RemoteEntry) :
  find (by_name n) cmds = Some e ->
  exists e', find (fun x => N.eqb (entry_id x) (entry_id e)) cmds = Some e'.
Proof.
  induction cmds as [|x cmds IH]; simpl; [discriminate|].
  destruct (by_name n x).
  - intros [= ->]. rewrite N.eqb_refl. eauto.
  - intros H. destruct (N.eqb (entry_id x) (entry_id e)); eauto.
Qed.

Ltac unfold_calls :=
  unfold registerGlobalCommand, registerGuildCommand, updateCommand,
    commands_fetch, commands_create, command_edit, guilds_fetch, debug,
    logger_debug, logger_info, logger_error, call, emit, await, catch,
    resolve, reject, record, with_trace; simpl.

Ltac settle :=
  eexists; split; [| rewrite <- ?app_assoc; simpl; reflexivity]; reflexivity.

Lemma handleGlobalCommand_run (n : string) (m : CommandModule) (w : World) :
  let cmds := application_commands w in
  let fetch := CommandsFetch GlobalTarget in
  let req := write_request GlobalTarget n m cmds in
  exists evs,
    match refuses w fetch with
    | Some e =>
        calls evs = [fetch] /\
        handleGlobalCommand n m w = (Rejected e, record w evs)
    | None =>
        calls evs = [fetch; req] /\
        match refuses w req with
        | Some e => handleGlobalCommand n m w = (Rejected e, record w evs)
        | None =>
            handleGlobalCommand n m w
            = (Fulfilled tt, record (after_write GlobalTarget n m w cmds) evs)
        end
    end.
Proof.
  intros cmds fetch req. subst fetch req. unfold handleGlobalCommand, after_write, write_request.
  unfold_calls.
  destruct (refuses w (CommandsFetch GlobalTarget)) as [e|] eqn:Hf.
  { settle. }
  rewrite find_by_name_map. fold cmds.
  destruct (find (by_name n) cmds) as [c|] eqn:Hfind; simpl.
  - destruct (find_by_name_id _ _ _ Hfind) as [c' Hc'].
    destruct (refuses w (CommandEdit _ _ _)) as [e|]; simpl.
    { settle. }
    fold cmds. rewrite Hc'. simpl. settle.
  - destruct (refuses w (CommandsCreate _ _)) as [e|]; simpl.
    { settle. }
    settle.
Qed.

Lemma handleScopedGuild_run (n : string) (m : CommandModule) (g : string)
    (w : World) :
  let t := GuildTarget g in
  exists evs,
    match resolved_guild w g with
    | None =>
        calls evs = [GuildsFetch g] /\
        handleScopedGuild n m g w = (Rejected (no_guild g), record w evs)
    | Some gs =>
        let cmds := gs_commands gs in
        let req := write_request t n m cmds in
        match refuses w (CommandsFetch t) with
        | Some e =>
            calls evs = [GuildsFetch g; CommandsFetch t] /\
            handleScopedGuild n m g w = (Rejected e, record w evs)
        | None =>
            calls evs = [GuildsFetch g; CommandsFetch t; req] /\
            match refuses w req with
            | Some e => handleScopedGuild n m g w = (Rejected e, record w evs)
            | None =>
                handleScopedGuild n m g w
                = (Fulfilled tt, record (after_write t n m w cmds) evs)
            end
        end
    end.
Proof.
  intros t. subst t.
  unfold handleScopedGuild, resolved_guild, after_write, write_request, no_guild.
  unfold_calls.
  destruct (refuses w (GuildsFetch g)) as [e|] eqn:Hg; simpl.
  { settle. }
  destruct (guilds w !! g) as [gs|] eqn:Hgs; simpl.
  2: { settle. }
  destruct (refuses w (CommandsFetch (GuildTarget g))) as [e|] eqn:Hf; simpl.
  { settle. }
  rewrite Hgs. simpl.
  rewrite find_by_name_map.
  destruct (find (by_name n) (gs_commands gs)) as [c|] eqn:Hfind; simpl.
  - destruct (find_by_name_id _ _ _ Hfind) as [c' Hc'].
    destruct (refuses w (CommandEdit _ _ _)) as [e|]; simpl.
    { settle. }
    rewrite Hgs. simpl. rewrite Hc'. simpl. settle.
  - destruct (refuses w (CommandsCreate _ _)) as [e|]; simpl.
    { settle. }
    rewrite Hgs. simpl. settle.
Qed.

(** ** Recorded events *)

Lemma record_record (w : World) (a b : list Event) :
  record (record w a) b = record w (a ++ b).
Proof. unfold record, with_trace. simpl. rewrite app_assoc. reflexivity. Qed.

Lemma trace_record (w : World) (evs : list Event) :
  trace (record w evs) = trace w ++ evs.
Proof. reflexivity. Qed.

Lemma registry_record (w : World) (evs : list Event) (t : Target) :
  registry (record w evs) t = registry w t.
Proof. destruct t; reflexivity. Qed.

Lemma trace_set_registry (w : World) (t : Target) (cmds : list RemoteEntry) (n : N) :
  trace (set_registry w t cmds n) = trace w.
Proof. destruct t; reflexivity. Qed.

Lemma trace_after_write (t : Target) (n : string) (m : CommandModule)
    (w : World) (cmds : list RemoteEntry) :
  trace (after_write t n m w cmds) = trace w.
Proof. unfold after_write. destruct (find _ _); apply trace_set_registry. Qed.

Lemma kind_write_request (t : Target) (n : string) (m : CommandModule)
    (cmds : list RemoteEntry) :
  kind (write_request t n m cmds) = write (op_of n cmds) t.
Proof. unfold write_request, op_of. destruct (find _ _); reflexivity. Qed.

(** ** Loops *)

Lemma for_of_cons {A} (x : A) (xs : list A) (body : A -> Promise unit) (w : World) :
  for_of (x :: xs) body w
  = match body x w with
    | (Fulfilled _, w1) => for_of xs body w1
    | (Rejected e, w1) => (Rejected e, w1)
    end.
Proof. reflexivity. Qed.

Lemma for_of_app {A} (xs ys : list A) (body : A -> Promise unit) (w : World) :
  for_of (xs ++ ys) body w
  = match for_of xs body w with
    | (Fulfilled _, w1) => for_of ys body w1
    | (Rejected e, w1) => (Rejected e, w1)
    end.
Proof.
  revert w. induction xs as [|x xs IH]; intros w; [reflexivity|].
  simpl app. rewrite !for_of_cons.
  destruct (body x w) as [[[]|e] w1]; [apply IH | reflexivity].
Qed.

(** ** The calls of a completed pass *)

Lemma handleGlobalCommand_fulfilled (n : string) (m : CommandModule) (w w' : World) :
  handleGlobalCommand n m w = (Fulfilled tt, w') ->
  exists evs,
    w' = record (after_write GlobalTarget n m w (application_commands w)) evs /\
    kinds evs
    = reconciliation (GlobalTarget, op_of n (application_commands w)).
Proof.
  intros H. destruct (handleGlobalCommand_run n m w) as [evs Hrun].
  destruct (refuses w (CommandsFetch GlobalTarget)); [destruct Hrun; congruence|].
  destruct Hrun as [Hc Hrun].
  destruct (refuses w (write_request _ _ _ _)); [congruence|].
  exists evs. split; [congruence|].
  unfold kinds. rewrite Hc. simpl. rewrite kind_write_request. reflexivity.
Qed.

Lemma handleScopedGuild_fulfilled (n : string) (m : CommandModule) (g : string)
    (w w' : World) :
  handleScopedGuild n m g w = (Fulfilled tt, w') ->
  exists evs gs,
    resolved_guild w g = Some gs /\
    w' = record (after_write (GuildTarget g) n m w (gs_commands gs)) evs /\
    kinds evs = reconciliation (GuildTarget g, op_of n (gs_commands gs)).
Proof.
  intros H. destruct (handleScopedGuild_run n m g w) as [evs Hrun].
  destruct (resolved_guild w g) as [gs|]; [|destruct Hrun; congruence].
  simpl in Hrun.
  destruct (refuses w (CommandsFetch _)); [destruct Hrun; congruence|].
  destruct Hrun as [Hc Hrun].
  destruct (refuses w (write_request _ _ _ _)); [congruence|].
  exists evs, gs. split; [reflexivity|]. split; [congruence|].
  unfold kinds. rewrite Hc. simpl. rewrite kind_write_request. reflexivity.
Qed.

Lemma handleScopedGuildsCommand_fulfilled (sg : list string) (n : string)
    (m : CommandModule) (w w' : World) :
  handleScopedGuildsCommand sg n m w = (Fulfilled tt, w') ->
  exists evs ds,
    trace w' = trace w ++ evs /\
    map fst ds = map GuildTarget sg /\
    kinds evs = flat_map reconciliation ds.
Proof.
  unfold handleScopedGuildsCommand. revert w.
  induction sg as [|g sg IH]; intros w H.
  - injection H as <-. exists [], []. rewrite app_nil_r. auto.
  - rewrite for_of_cons in H.
    destruct (handleScopedGuild n m g w) as [[[]|e] w1] eqn:Hg; [|discriminate].
    apply handleScopedGuild_fulfilled in Hg as (evs1 & gs & _ & -> & Hk1).
    apply IH in H as (evs2 & ds & Ht & Hds & Hk2).
    exists (evs1 ++ evs2), ((GuildTarget g, op_of n (gs_commands gs)) :: ds).
    split; [|split].
    + rewrite Ht, trace_record, trace_after_write, app_assoc. reflexivity.
    + simpl. rewrite Hds. reflexivity.
    + rewrite kinds_app, Hk1, Hk2. reflexivity.
Qed.

Lemma handleCommand_fulfilled (sg : list string) (m : CommandModule) (n : string)
    (w w' : World) :
  handleCommand sg m n w = (Fulfilled tt, w') ->
  exists evs ds,
    trace w' = trace w ++ evs /\
    map fst ds = targets sg /\
    kinds evs = flat_map reconciliation ds.
Proof.
  unfold handleCommand, await, debug, logger_debug, emit. fold (record w).
  intros H. destruct sg as [|g sg].
  - apply handleGlobalCommand_fulfilled in H as (evs & -> & Hk).
    eexists (_ :: evs), [(GlobalTarget, op_of n (application_commands w))].
    split; [|split].
    + rewrite trace_record, trace_after_write. simpl.
      rewrite <- app_assoc. reflexivity.
    + reflexivity.
    + change (kinds (?e :: evs)) with (kinds evs). rewrite Hk.
      symmetry. apply app_nil_r.
  - apply handleScopedGuildsCommand_fulfilled in H as (evs & ds & Ht & Hds & Hk).
    eexists (_ :: evs), ds. split; [|split].
    + rewrite Ht. simpl. rewrite <- app_assoc. reflexivity.
    + exact Hds.
    + exact Hk.
Qed.

Lemma sync_file_fulfilled (sg : list string) (file : string * Import)
    (w w' : World) :
  sync_file sg file w = (Fulfilled tt, w') ->
  exists evs ds,
    trace w' = trace w ++ evs /\
    map fst ds = plan sg [file] /\
    kinds evs = flat_map reconciliation ds.
Proof.
  destruct file as [path [m|e]].
  - rewrite sync_file_loaded, plan_loaded. destruct (publishable m).
    + apply handleCommand_fulfilled.
    + intros [= <-]. exists [], []. rewrite app_nil_r. auto.
  - rewrite sync_file_unloadable. discriminate.
Qed.

Lemma published_cons (file : string * Import) (files : list (string * Import)) :
  published (file :: files) = published [file] ++ published files.
Proof. unfold published. simpl. rewrite app_nil_r. reflexivity. Qed.

Lemma plan_cons (sg : list string) (file : string * Import)
    (files : list (string * Import)) :
  plan sg (file :: files) = plan sg [file] ++ plan sg files.
Proof. unfold plan. rewrite published_cons, flat_map_app. reflexivity. Qed.

Lemma for_of_sync_file_fulfilled (sg : list string)
    (files : list (string * Import)) (w w' : World) :
  for_of files (sync_file sg) w = (Fulfilled tt, w') ->
  exists evs ds,
    trace w' = trace w ++ evs /\
    map fst ds = plan sg files /\
    kinds evs = flat_map reconciliation ds.
Proof.
  revert w. induction files as [|file files IH]; intros w H.
  - injection H as <-. exists [], []. rewrite app_nil_r. auto.
  - rewrite for_of_cons in H.
    destruct (sync_file sg file w) as [[[]|e] w1] eqn:Hf; [|discriminate].
    apply sync_file_fulfilled in Hf as (evs1 & ds1 & Ht1 & Hds1 & Hk1).
    apply IH in H as (evs2 & ds2 & Ht2 & Hds2 & Hk2).
    exists (evs1 ++ evs2), (ds1 ++ ds2). split; [|split].
    + rewrite Ht2, Ht1, app_assoc. reflexivity.
    + rewrite map_app, Hds1, Hds2, <- plan_cons. reflexivity.
    + rewrite kinds_app, flat_map_app, Hk1, Hk2. reflexivity.
Qed.

Lemma sync_unfold (sg : list string) (files : list (string * Import)) (w : World) :
  sync sg files w
  = for_of files (sync_file sg) (record w [LogInfo "Syncing commands"]).
Proof. reflexivity. Qed.

Lemma count_app (k : Kind) (a b : list Kind) :
  count k (a ++ b) = (count k a + count k b)%nat.
Proof. unfold count. rewrite filter_app, length_app. reflexivity. Qed.

Lemma occurrences_app (t : Target) (a b : list Target) :
  occurrences t (a ++ b) = (occurrences t a + occurrences t b)%nat.
Proof. unfold occurrences. rewrite filter_app, length_app. reflexivity. Qed.

Lemma count_fetch_reconciliation (t : Target) (d : Target * Op) :
  count (KFetch t) (reconciliation d) = occurrences t [fst d].
Proof.
  destruct d as [t' op]. unfold reconciliation, count, occurrences. simpl.
  destruct t' as [|g], op; simpl; rewrite !filter_cons; simpl;
    repeat case_decide; simplify_eq; try reflexivity; try congruence.
Qed.

Lemma count_fetch_reconciliations (t : Target) (ds : list (Target * Op)) :
  count (KFetch t) (flat_map reconciliation ds) = occurrences t (map fst ds).
Proof.
  induction ds as [|d ds IH]; [reflexivity|].
  simpl flat_map. simpl map. rewrite count_app, IH.
  change (d.1 :: map fst ds) with ([d.1] ++ map fst ds).
  rewrite occurrences_app, count_fetch_reconciliation. reflexivity.
Qed.

Lemma occurrences_plan (sg : list string) (t : Target)
    (files : list (string * Import)) :
  occurrences t (plan sg files)
  = (length (published files) * occurrences t (targets sg))%nat.
Proof.
  unfold plan. induction (published files) as [|p ps IH]; [reflexivity|].
  simpl. rewrite occurrences_app, IH. reflexivity.
Qed.

Lemma sync_fulfilled (sg : list string) (files : list (string * Import))
    (w w' : World) :
  sync sg files w = (Fulfilled tt, w') ->
  exists evs ds,
    trace w' = trace w ++ evs /\
    map fst ds = plan sg files /\
    kinds evs = flat_map reconciliation ds.
Proof.
  rewrite sync_unfold. intros H.
  apply for_of_sync_file_fulfilled in H as (evs & ds & Ht & Hds & Hk).
  exists (LogInfo "Syncing commands" :: evs), ds. split; [|split].
  - rewrite Ht. simpl. rewrite <- app_assoc. reflexivity.
  - exact Hds.
  - exact Hk.
Qed.

(** C1, as amended. The entries of a target's registry are fetched once
    for each published definition, not once per target: the calls of a
    completed pass are, for each published definition in discovery order
    and each target in order, the resolution of the guild (scoped targets),
    one fetch of the target's entries and then one create or edit; so each
    target is fetched as many times as there are published definitions. *)
Theorem fetch_for_each_definition
    (scopedGuilds : list string) (files : list (string * Import))
    (w w' : World) :
  sync scopedGuilds files w = (Fulfilled tt, w') ->
  exists evs ds,
    trace w' = trace w ++ evs /\
    map fst ds = plan scopedGuilds files /\
    kinds evs = flat_map reconciliation ds /\
    forall t, count (KFetch t) (kinds evs)
              = (length (published files)
                 * occurrences t (targets scopedGuilds))%nat.
Proof.
  intros H. apply sync_fulfilled in H as (evs & ds & Ht & Hds & Hk).
  exists evs, ds. split; [exact Ht|]. split; [exact Hds|]. split; [exact Hk|].
  intros t. rewrite Hk, count_fetch_reconciliations, Hds.
  apply occurrences_plan.
Qed.

Lemma fetch_for_each_definition_witness :
  exists evs ds,
    trace (snd (sync [] [ping_js; ban_js] empty_remote))
    = trace empty_remote ++ evs /\
    map fst ds = plan [] [ping_js; ban_js] /\
    kinds evs = flat_map reconciliation ds /\
    forall t, count (KFetch t) (kinds evs)
              = (length (published [ping_js; ban_js])
                 * occurrences t (targets []))%nat.
Proof.
  apply (fetch_for_each_definition [] [ping_js; ban_js] empty_remote).
  vm_compute. reflexivity.
Defined.

(** C1, as stated, fails: with two published definitions the global
    registry is fetched twice in one pass. *)
Lemma global_registry_fetched_twice :
  let run := sync [] [ping_js; ban_js] empty_remote in
  fst run = Fulfilled tt /\
  kinds (trace (snd run))
  = [KFetch GlobalTarget; KCreate GlobalTarget;
     KFetch GlobalTarget; KCreate GlobalTarget] /\
  count (KFetch GlobalTarget) (kinds (trace (snd run))) <> 1%nat.
Proof. vm_compute. repeat split. discriminate. Qed.

(** C2, as amended. A rejection while one definition is processed, such as
    the remote refusing its create or edit call, is not confined to that
    definition: the pass rejects with the same reason in the state reached
    there, whatever definitions remain; none of them is processed. *)
Theorem rejection_ends_pass
    (scopedGuilds : list string) (before after : list (string * Import))
    (file : string * Import) (w w1 w2 : World) (e : JsVal) :
  sync scopedGuilds before w = (Fulfilled tt, w1) ->
  sync_file scopedGuilds file w1 = (Rejected e, w2) ->
  sync scopedGuilds (before ++ file :: after) w = (Rejected e, w2).
Proof.
  rewrite !sync_unfold. intros Hb Hf.
  rewrite for_of_app, Hb, for_of_cons, Hf. reflexivity.
Qed.

Lemma rejection_ends_pass_witness :
  sync [] ([] ++ ping_js :: [ban_js]) remote_refusing_ping
  = (Rejected missing_access,
     snd (sync_file [] ping_js (snd (sync [] [] remote_refusing_ping)))).
Proof.
  apply (rejection_ends_pass [] [] [ban_js] ping_js remote_refusing_ping
           (snd (sync [] [] remote_refusing_ping))).
  - vm_compute. reflexivity.
  - vm_compute. reflexivity.
Defined.

(** C2, as stated, fails: when the remote refuses to create "ping", the
    pass rejects and "ban", which the remote would accept, is never
    processed. *)
Lemma refused_create_skips_remaining :
  let run := sync [] [ping_js; ban_js] remote_refusing_ping in
  fst run = Rejected missing_access /\
  calls (trace (snd run))
  = [CommandsFetch GlobalTarget;
     CommandsCreate GlobalTarget (create_data "ping" (slash None))] /\
  application_commands (snd run) = [] /\
  fst (sync [] [ban_js] remote_refusing_ping) = Fulfilled tt.
Proof. vm_compute. repeat split. Qed.

(** ** Scoped guilds *)

Lemma handleCommand_unfold (sg : list string) (m : CommandModule) (n : string)
    (w : World) :
  handleCommand sg m n w
  = match sg with
    | _ :: _ => handleScopedGuildsCommand sg n m
    | [] => handleGlobalCommand n m
    end (record w [LogDebug ("Checking if " ++ n ++ " is already registered")]).
Proof. reflexivity. Qed.

Lemma resolved_guild_record (w : World) (evs : list Event) (g : string) :
  resolved_guild (record w evs) g = resolved_guild w g.
Proof. reflexivity. Qed.

(** C3, as amended. In a scoped pass over two guilds with one published
    definition, a completed pass makes exactly one create or edit call on
    each guild's registry, each after the guild is resolved and its entries
    are fetched; when the first guild cannot be resolved the pass rejects
    with "Found no Guild with id ...!" right after the failed resolution:
    no call is made for the second guild. *)
Theorem scoped_pass_over_two_guilds
    (g1 g2 path : string) (m : CommandModule) (w : World) :
  publishable m = true ->
  exists r w',
    sync [g1; g2] [(path, Loaded m)] w = (r, w') /\
    match resolved_guild w g1 with
    | None =>
        r = Rejected (no_guild g1) /\
        exists evs, w' = record w evs /\ calls evs = [GuildsFetch g1]
    | Some _ =>
        match r with
        | Fulfilled _ =>
            exists evs op1 op2,
              trace w' = trace w ++ evs /\
              kinds evs
              = [KGuild g1; KFetch (GuildTarget g1); write op1 (GuildTarget g1);
                 KGuild g2; KFetch (GuildTarget g2); write op2 (GuildTarget g2)]
        | Rejected _ => True
        end
    end.
Proof.
  intros Hp.
  destruct (sync [g1; g2] [(path, Loaded m)] w) as [r w'] eqn:Hs.
  exists r, w'. split; [reflexivity|].
  destruct (resolved_guild w g1) as [gs|] eqn:Hg.
  - destruct r as [[]|e]; [|exact I].
    apply sync_fulfilled in Hs as (evs & ds & Ht & Hds & Hk).
    rewrite plan_loaded, Hp in Hds. change (targets [g1; g2])
      with [GuildTarget g1; GuildTarget g2] in Hds.
    destruct ds as [|[t1 op1] [|[t2 op2] [|d ds]]]; try discriminate.
    injection Hds as -> ->. exists evs, op1, op2. split; [exact Ht|].
    rewrite Hk. reflexivity.
  - rewrite sync_unfold, for_of_cons, sync_file_loaded, Hp, handleCommand_unfold in Hs.
    unfold handleScopedGuildsCommand in Hs. rewrite for_of_cons in Hs.
    destruct (handleScopedGuild_run (resolveName m path) m g1
                (record (record w [LogInfo "Syncing commands"])
                   [LogDebug ("Checking if " ++ resolveName m path
                              ++ " is already registered")]))
      as [evs Hrun].
    rewrite !resolved_guild_record, Hg in Hrun. destruct Hrun as [Hc Hrun].
    rewrite Hrun in Hs. injection Hs as <- <-. split; [reflexivity|].
    rewrite !record_record. eexists. split; [reflexivity|].
    unfold calls in *. simpl. exact Hc.
Qed.

Lemma scoped_pass_over_two_guilds_witness :
  exists r w',
    sync ["g1"; "g2"]%string [ping_js] remote_with_g2 = (r, w') /\
    match resolved_guild remote_with_g2 "g1" with
    | None =>
        r = Rejected (no_guild "g1") /\
        exists evs, w' = record remote_with_g2 evs /\
                    calls evs = [GuildsFetch "g1"]
    | Some _ =>
        match r with
        | Fulfilled _ =>
            exists evs op1 op2,
              trace w' = trace remote_with_g2 ++ evs /\
              kinds evs
              = [KGuild "g1"; KFetch (GuildTarget "g1");
                 write op1 (GuildTarget "g1");
                 KGuild "g2"; KFetch (GuildTarget "g2");
                 write op2 (GuildTarget "g2")]
        | Rejected _ => True
        end
    end.
Proof.
  apply (scoped_pass_over_two_guilds "g1" "g2" _ (slash None) remote_with_g2).
  reflexivity.
Defined.

(** C3, as stated, fails: when "g1" cannot be resolved, nothing is asked
    of "g2", which a pass over "g2" alone would reach. *)
Lemma unresolved_guild_ends_scoped_pass :
  let run := sync ["g1"; "g2"]%string [ping_js] remote_with_g2 in
  fst run = Rejected (no_guild "g1") /\
  calls (trace (snd run)) = [GuildsFetch "g1"] /\
  count (KCreate (GuildTarget "g2")) (kinds (trace (snd run))) = 0%nat /\
  count (KEdit (GuildTarget "g2")) (kinds (trace (snd run))) = 0%nat /\
  kinds (trace (snd (sync ["g2"]%string [ping_js] remote_with_g2)))
  = [KGuild "g2"; KFetch (GuildTarget "g2"); KCreate (GuildTarget "g2")].
Proof. vm_compute. repeat split. Qed.

(** ** The data of the calls *)

Lemma reconcile_on_run (t : Target) (n : string) (m : CommandModule)
    (w : World) (cmds : list RemoteEntry) :
  reachable w t = Some cmds ->
  refuses w (CommandsFetch t) = None ->
  exists r w' evs,
    reconcile_on t n m w = (r, w') /\
    trace w' = trace w ++ evs /\
    calls evs = resolution t ++ [CommandsFetch t; write_request t n m cmds].
Proof.
  intros Hr Hf. destruct t as [|g]; simpl in *.
  - injection Hr as <-.
    destruct (handleGlobalCommand_run n m w) as [evs Hrun].
    rewrite Hf in Hrun. destruct Hrun as [Hc Hrun].
    destruct (refuses w (write_request _ _ _ _)).
    + eexists _, _, evs. split; [exact Hrun|]. split; [reflexivity | exact Hc].
    + eexists _, _, evs. split; [exact Hrun|]. split; [|exact Hc].
      rewrite trace_record, trace_after_write. reflexivity.
  - destruct (handleScopedGuild_run n m g w) as [evs Hrun].
    destruct (resolved_guild w g) as [gs|]; [|discriminate].
    simpl in *. injection Hr as <-. rewrite Hf in Hrun.
    destruct Hrun as [Hc Hrun].
    destruct (refuses w (write_request _ _ _ _)).
    + eexists _, _, evs. split; [exact Hrun|]. split; [reflexivity | exact Hc].
    + eexists _, _, evs. split; [exact Hrun|]. split; [|exact Hc].
      rewrite trace_record, trace_after_write. reflexivity.
Qed.

(** C4, as amended. For a definition with no entry of its resolved name on
    the target, the handler fetches the entries and then issues a create
    call carrying the resolved name, the definition's description or the
    placeholder ".." when it has none, the transformed options, and the
    chat-input type whatever the definition's kind. *)
Theorem create_call_is_chat_input
    (t : Target) (n : string) (m : CommandModule) (w : World)
    (cmds : list RemoteEntry) :
  reachable w t = Some cmds ->
  refuses w (CommandsFetch t) = None ->
  find (by_name n) cmds = None ->
  exists r w' evs,
    reconcile_on t n m w = (r, w') /\
    trace w' = trace w ++ evs /\
    calls evs
    = resolution t
      ++ [CommandsFetch t;
          CommandsCreate t
            {| data_name := Some n;
               data_description :=
                 Some match m_description m with
                      | Some d => d
                      | None => ".."%string
                      end;
               data_options := optionsTransformer m;
               data_type := ChatInput |}].
Proof.
  intros Hr Hf Hn.
  destruct (reconcile_on_run t n m w cmds Hr Hf) as (r & w' & evs & Hrun & Ht & Hc).
  exists r, w', evs. split; [exact Hrun|]. split; [exact Ht|].
  rewrite Hc. unfold write_request. rewrite Hn. reflexivity.
Qed.

Lemma create_call_is_chat_input_witness :
  exists r w' evs,
    reconcile_on GlobalTarget "User Info" user_info empty_remote = (r, w') /\
    trace w' = trace empty_remote ++ evs /\
    calls evs
    = resolution GlobalTarget
      ++ [CommandsFetch GlobalTarget;
          CommandsCreate GlobalTarget
            {| data_name := Some "User Info"%string;
               data_description :=
                 Some match m_description user_info with
                      | Some d => d
                      | None => ".."%string
                      end;
               data_options := optionsTransformer user_info;
               data_type := ChatInput |}].
Proof.
  apply (create_call_is_chat_input GlobalTarget "User Info" user_info
           empty_remote []).
  - reflexivity.
  - reflexivity.
  - reflexivity.
Defined.

(** C4, as stated, fails on the type: a user context-menu definition is
    created with the chat-input type, not the user type. *)
Lemma context_menu_created_as_chat_input :
  let run := handleCommand [] user_info "User Info" empty_remote in
  publishable user_info = true /\
  spec_remote_type (m_type user_info) = Some User /\
  calls (trace (snd run))
  = [CommandsFetch GlobalTarget;
     CommandsCreate GlobalTarget
       {| data_name := Some "User Info"%string;
          data_description := Some ".."%string;
          data_options := None;
          data_type := ChatInput |}] /\
  Some ChatInput <> spec_remote_type (m_type user_info).
Proof. vm_compute. repeat split. discriminate. Qed.

(** What an edit call carries: the definition's own name and description,
    absent when the definition has none. *)
Lemma edit_call_data
    (t : Target) (n : string) (m : CommandModule) (w : World)
    (cmds : list RemoteEntry) (e : RemoteEntry) :
  reachable w t = Some cmds ->
  refuses w (CommandsFetch t) = None ->
  find (by_name n) cmds = Some e ->
  exists r w' evs,
    reconcile_on t n m w = (r, w') /\
    trace w' = trace w ++ evs /\
    calls evs
    = resolution t
      ++ [CommandsFetch t;
          CommandEdit t (entry_id e)
            {| data_name := m_name m;
               data_description := m_description m;
               data_options := optionsTransformer m;
               data_type := ChatInput |}].
Proof.
  intros Hr Hf Hn.
  destruct (reconcile_on_run t n m w cmds Hr Hf) as (r & w' & evs & Hrun & Ht & Hc).
  exists r, w', evs. split; [exact Hrun|]. split; [exact Ht|].
  rewrite Hc. unfold write_request. rewrite Hn. reflexivity.
Qed.

(** C5 does not hold of [updateCommand]: for "ping.js", which has neither
    a name nor a description of its own and is matched by name with the
    registered "ping", the edit call carries no name and no description,
    where a create call carries "ping" and the placeholder "..". *)
Lemma edit_call_without_name_and_placeholder :
  let run := sync [] [ping_js] remote_with_ping in
  fst run = Fulfilled tt /\
  calls (trace (snd run))
  = [CommandsFetch GlobalTarget;
     CommandEdit GlobalTarget 7
       {| data_name := None; data_description := None;
          data_options := Some []; data_type := ChatInput |}] /\
  create_data "ping" (slash None)
  = {| data_name := Some "ping"%string; data_description := Some ".."%string;
       data_options := Some []; data_type := ChatInput |} /\
  map entry_description (application_commands (snd run))
  = ["Replies with pong"%string].
Proof. vm_compute. repeat split. Qed.

(** ** The constructor *)

(** C10. The promise chain the constructor starts never rejects: a
    rejection of the pass is caught and logged as one error entry (the
    rejection value, or "Something went wrong with syncing" when it is
    null or undefined), and the info entry "Commands synced successfully"
    is logged last in both cases. *)
Theorem constructor_logs_success_always
    (scopedGuilds : list string) (files : list (string * Import)) (w : World) :
  exists w',
    CommandSyncer scopedGuilds files w = (Fulfilled tt, w') /\
    match sync scopedGuilds files w with
    | (Fulfilled _, ws) =>
        w' = record ws [LogInfo "Commands synced successfully"]
    | (Rejected e, ws) =>
        w' = record ws
               [LogError
                  (nullish_or e (VStr "Something went wrong with syncing"));
                LogInfo "Commands synced successfully"]
    end.
Proof.
  unfold CommandSyncer, await, catch, logger_error, logger_info, emit.
  destruct (sync scopedGuilds files w) as [[[]|e] ws].
  - eexists. split; reflexivity.
  - eexists. split; [reflexivity|].
    unfold record, with_trace. simpl. rewrite <- app_assoc. reflexivity.
Qed.

(** ** Registries after a write *)

Lemma registry_set_same (w : World) (t : Target) (old cmds : list RemoteEntry)
    (next : N) :
  registry w t = Some old ->
  registry (set_registry w t cmds next) t = Some cmds.
Proof.
  destruct t as [|g]; simpl; [reflexivity|].
  rewrite lookup_alter_eq. destruct (guilds w !! g); simpl; congruence.
Qed.

Lemma registry_set_other (w : World) (t t' : Target) (cmds : list RemoteEntry)
    (next : N) :
  t <> t' -> registry (set_registry w t cmds next) t' = registry w t'.
Proof.
  destruct t as [|g], t' as [|g']; simpl; try congruence; try reflexivity.
  intros Hne. rewrite lookup_alter_ne; [reflexivity | congruence].
Qed.

Lemma next_id_set_registry (w : World) (t : Target) (cmds : list RemoteEntry)
    (next : N) :
  next_id (set_registry w t cmds next) = next.
Proof. destruct t; reflexivity. Qed.

Lemma refuses_set_registry (w : World) (t : Target) (cmds : list RemoteEntry)
    (next : N) :
  refuses (set_registry w t cmds next) = refuses w.
Proof. destruct t; reflexivity. Qed.

Lemma after_write_entries (t : Target) (n : string) (m : CommandModule)
    (w : World) (cmds : list RemoteEntry) :
  after_write t n m w cmds
  = set_registry w t (entries_after_write n m (next_id w) cmds)
      (match find (by_name n) cmds with
       | Some _ => next_id w
       | None => N.succ (next_id w)
       end).
Proof.
  unfold after_write, entries_after_write.
  destruct (find (by_name n) cmds); reflexivity.
Qed.

Lemma registry_after_write_same (t : Target) (n : string) (m : CommandModule)
    (w : World) (cmds : list RemoteEntry) :
  registry w t = Some cmds ->
  registry (after_write t n m w cmds) t
  = Some (entries_after_write n m (next_id w) cmds).
Proof. intros H. rewrite after_write_entries. eapply registry_set_same, H. Qed.

Lemma registry_after_write_other (t t' : Target) (n : string)
    (m : CommandModule) (w : World) (cmds : list RemoteEntry) :
  t <> t' -> registry (after_write t n m w cmds) t' = registry w t'.
Proof. intros H. rewrite after_write_entries. apply registry_set_other, H. Qed.

Lemma refuses_after_write (t : Target) (n : string) (m : CommandModule)
    (w : World) (cmds : list RemoteEntry) :
  refuses (after_write t n m w cmds) = refuses w.
Proof. rewrite after_write_entries. apply refuses_set_registry. Qed.

(** ** Entries after a write *)

Lemma ids_edit_in (id : N) (data : ApplicationCommandData)
    (cmds : list RemoteEntry) :
  map entry_id (edit_in id data cmds) = map entry_id cmds.
Proof.
  unfold edit_in. rewrite map_map. apply map_ext. intros e.
  destruct (N.eqb (entry_id e) id); reflexivity.
Qed.

Lemma same_id_same_entry (cmds : list RemoteEntry) (x y : RemoteEntry) :
  List.NoDup (map entry_id cmds) -> In x cmds -> In y cmds ->
  entry_id x = entry_id y -> x = y.
Proof.
  induction cmds as [|c cmds IH]; simpl; [contradiction|].
  intros Hnd Hx Hy Hid. apply List.NoDup_cons_iff in Hnd as [Hnotin Hnd].
  destruct Hx as [-> | Hx], Hy as [-> | Hy].
  - reflexivity.
  - exfalso. apply Hnotin. rewrite Hid. apply in_map. exact Hy.
  - exfalso. apply Hnotin. rewrite <- Hid. apply in_map. exact Hx.
  - apply IH; assumption.
Qed.

Lemma names_edit_in (n : string) (m : CommandModule) (cmds : list RemoteEntry)
    (e : RemoteEntry) :
  List.NoDup (map entry_id cmds) ->
  find (by_name n) cmds = Some e ->
  m_name m = None \/ m_name m = Some n ->
  map entry_name (edit_in (entry_id e) (edit_data m) cmds)
  = map entry_name cmds.
Proof.
  intros Hnd Hfind Hname. apply find_some in Hfind as [Hin Hn].
  unfold by_name in Hn. apply String.eqb_eq in Hn.
  unfold edit_in. rewrite map_map. apply map_ext_in. intros x Hx.
  destruct (N.eqb (entry_id x) (entry_id e)) eqn:E; [|reflexivity].
  apply N.eqb_eq in E.
  assert (x = e) as -> by (eapply same_id_same_entry; eassumption).
  simpl. destruct Hname as [-> | ->]; simpl; congruence.
Qed.

Lemma names_entries_after_write (n : string) (m : CommandModule) (next : N)
    (cmds : list RemoteEntry) :
  List.NoDup (map entry_id cmds) ->
  m_name m = None \/ m_name m = Some n ->
  map entry_name (entries_after_write n m next cmds)
  = map entry_name cmds
    ++ match op_of n cmds with Edit => [] | Create => [n] end.
Proof.
  intros Hnd Hname. unfold entries_after_write, op_of.
  destruct (find (by_name n) cmds) as [e|] eqn:Hfind.
  - rewrite app_nil_r. eapply names_edit_in; eassumption.
  - rewrite map_app. reflexivity.
Qed.

Lemma op_of_edit (n : string) (cmds : list RemoteEntry) :
  In n (map entry_name cmds) -> op_of n cmds = Edit.
Proof.
  intros Hin. unfold op_of.
  destruct (find (by_name n) cmds) eqn:Hfind; [reflexivity|].
  apply in_map_iff in Hin as (e & <- & He).
  apply (find_none _ _ Hfind) in He. unfold by_name in He.
  rewrite String.eqb_refl in He. discriminate.
Qed.

Lemma well_formed_entries_after_write (n : string) (m : CommandModule)
    (next : N) (cmds : list RemoteEntry) :
  well_formed_registry next cmds ->
  well_formed_registry
    (match find (by_name n) cmds with
     | Some _ => next
     | None => N.succ next
     end)
    (entries_after_write n m next cmds).
Proof.
  intros [Hnd Hlt]. unfold entries_after_write.
  destruct (find (by_name n) cmds) as [e|]; split.
  - rewrite ids_edit_in. exact Hnd.
  - unfold edit_in. rewrite List.Forall_map.
    eapply List.Forall_impl; [|exact Hlt]. intros x Hx.
    destruct (N.eqb (entry_id x) (entry_id e)); exact Hx.
  - rewrite map_app. simpl. apply List.NoDup_app.
    + exact Hnd.
    + constructor; [intros []| constructor].
    + intros id Hin [<- | []]. apply in_map_iff in Hin as (x & Hid & Hx).
      rewrite List.Forall_forall in Hlt. specialize (Hlt x Hx). lia.
  - apply List.Forall_app. split.
    + eapply List.Forall_impl; [|exact Hlt]. intros x Hx. simpl in Hx. lia.
    + constructor; [simpl; lia | constructor].
Qed.

(** ** Invariants of a pass *)

Lemma well_formed_registry_succ (next : N) (cmds : list RemoteEntry) :
  well_formed_registry next cmds -> well_formed_registry (N.succ next) cmds.
Proof.
  intros [Hnd Hlt]. split; [exact Hnd|].
  eapply List.Forall_impl; [|exact Hlt]. intros x Hx. simpl in Hx. lia.
Qed.

Lemma sound_record (w : World) (evs : list Event) :
  sound w -> sound (record w evs).
Proof.
  intros [Ha Hwf]. split.
  - exact Ha.
  - intros t cmds H. rewrite registry_record in H. exact (Hwf t cmds H).
Qed.

Lemma grows_record (w : World) (evs : list Event) : grows w (record w evs).
Proof.
  intros t n (cmds & H & Hin). exists cmds. rewrite registry_record. auto.
Qed.

Lemma grows_refl (w : World) : grows w w.
Proof. intros t n H. exact H. Qed.

Lemma grows_trans (w1 w2 w3 : World) : grows w1 w2 -> grows w2 w3 -> grows w1 w3.
Proof. intros H1 H2 t n H. apply H2, H1, H. Qed.

Lemma same_names_refl (w : World) : same_names w w.
Proof. intros t. reflexivity. Qed.

Lemma same_names_trans (w1 w2 w3 : World) :
  same_names w1 w2 -> same_names w2 w3 -> same_names w1 w3.
Proof. intros H1 H2 t. rewrite H2, H1. reflexivity. Qed.

Lemma same_names_record (w : World) (evs : list Event) :
  same_names w (record w evs).
Proof. intros t. rewrite registry_record. reflexivity. Qed.

Lemma same_names_has_name (w w' : World) (t : Target) (n : string) :
  same_names w w' -> has_name w t n -> has_name w' t n.
Proof.
  intros Hs (cmds & H & Hin). specialize (Hs t). rewrite H in Hs.
  destruct (registry w' t) as [cmds'|] eqn:H'; [|discriminate].
  simpl in Hs. injection Hs as Hs. exists cmds'. rewrite Hs. auto.
Qed.

Lemma sound_after_write (t : Target) (n : string) (m : CommandModule)
    (w : World) (cmds : list RemoteEntry) :
  sound w -> registry w t = Some cmds -> sound (after_write t n m w cmds).
Proof.
  intros [Ha Hwf] Hreg. split.
  - intros r. rewrite refuses_after_write. apply Ha.
  - intros t' cmds' H'. rewrite after_write_entries in *.
    rewrite next_id_set_registry.
    destruct (decide (t = t')) as [<- | Hne].
    + rewrite (registry_set_same _ _ cmds) in H' by exact Hreg.
      injection H' as <-. apply well_formed_entries_after_write.
      exact (Hwf t cmds Hreg).
    + rewrite registry_set_other in H' by exact Hne. apply Hwf in H'.
      destruct (find (by_name n) cmds);
        [exact H' | apply well_formed_registry_succ, H'].
Qed.

Lemma names_after_write (t : Target) (n : string) (m : CommandModule)
    (w : World) (cmds : list RemoteEntry) :
  sound w -> registry w t = Some cmds -> resolved m n ->
  exists cmds',
    registry (after_write t n m w cmds) t = Some cmds' /\
    map entry_name cmds'
    = map entry_name cmds
      ++ match op_of n cmds with Edit => [] | Create => [n] end.
Proof.
  intros [_ Hwf] Hreg Hname. eexists. split.
  - apply registry_after_write_same, Hreg.
  - apply names_entries_after_write; [|exact Hname].
    apply (Hwf t cmds Hreg).
Qed.

Lemma grows_after_write (t : Target) (n : string) (m : CommandModule)
    (w : World) (cmds : list RemoteEntry) :
  sound w -> registry w t = Some cmds -> resolved m n ->
  grows w (after_write t n m w cmds).
Proof.
  intros Hs Hreg Hname t' n' (cmds0 & H0 & Hin).
  destruct (decide (t = t')) as [<- | Hne].
  - destruct (names_after_write t n m w cmds Hs Hreg Hname) as (cmds' & H' & Hn).
    exists cmds'. split; [exact H'|]. rewrite Hn. apply in_or_app. left.
    congruence.
  - exists cmds0. rewrite registry_after_write_other by exact Hne. auto.
Qed.

Lemma has_name_after_write (t : Target) (n : string) (m : CommandModule)
    (w : World) (cmds : list RemoteEntry) :
  sound w -> registry w t = Some cmds -> resolved m n ->
  has_name (after_write t n m w cmds) t n.
Proof.
  intros Hs Hreg Hname.
  destruct (names_after_write t n m w cmds Hs Hreg Hname) as (cmds' & H' & Hn).
  exists cmds'. split; [exact H'|]. rewrite Hn. apply in_or_app.
  unfold op_of. destruct (find (by_name n) cmds) as [e|] eqn:Hfind.
  - left. apply find_some in Hfind as [Hin Hb]. unfold by_name in Hb.
    apply String.eqb_eq in Hb. subst n. apply in_map. exact Hin.
  - right. left. reflexivity.
Qed.

Lemma same_names_after_write (t : Target) (n : string) (m : CommandModule)
    (w : World) (cmds : list RemoteEntry) :
  sound w -> registry w t = Some cmds -> resolved m n ->
  In n (map entry_name cmds) ->
  same_names w (after_write t n m w cmds).
Proof.
  intros Hs Hreg Hname Hin t'.
  destruct (decide (t = t')) as [<- | Hne].
  - destruct (names_after_write t n m w cmds Hs Hreg Hname) as (cmds' & H' & Hn).
    rewrite H', Hreg. simpl. rewrite Hn, (op_of_edit _ _ Hin), app_nil_r.
    reflexivity.
  - rewrite registry_after_write_other by exact Hne. reflexivity.
Qed.

Lemma resolved_resolveName (m : CommandModule) (path : string) :
  resolved m (resolveName m path).
Proof. unfold resolved, resolveName. destruct (m_name m); auto. Qed.

Lemma resolved_guild_registry (w : World) (g : string) (gs : GuildState) :
  resolved_guild w g = Some gs ->
  registry w (GuildTarget g) = Some (gs_commands gs).
Proof.
  unfold resolved_guild. destruct (refuses w (GuildsFetch g)); [discriminate|].
  simpl. intros ->. reflexivity.
Qed.

(** ** A first pass leaves every published name registered *)

Lemma first_pass_scoped (sg : list string) (n : string) (m : CommandModule)
    (w w' : World) :
  sound w -> resolved m n ->
  handleScopedGuildsCommand sg n m w = (Fulfilled tt, w') ->
  sound w' /\ grows w w' /\
  forall g, In g sg -> has_name w' (GuildTarget g) n.
Proof.
  unfold handleScopedGuildsCommand. intros Hs Hname. revert w Hs.
  induction sg as [|g sg IH]; intros w Hs H.
  - injection H as <-. split; [exact Hs|]. split; [apply grows_refl|].
    intros g [].
  - rewrite for_of_cons in H.
    destruct (handleScopedGuild n m g w) as [[[]|e] w1] eqn:Hg; [|discriminate].
    apply handleScopedGuild_fulfilled in Hg as (evs & gs & Hres & -> & _).
    apply resolved_guild_registry in Hres.
    pose proof (sound_after_write (GuildTarget g) n m w _ Hs Hres) as Hs1.
    apply (sound_record _ evs) in Hs1.
    destruct (IH _ Hs1 H) as (Hs' & Hgrow & Hall).
    split; [exact Hs'|]. split.
    + eapply grows_trans; [|exact Hgrow].
      eapply grows_trans; [|apply grows_record].
      apply grows_after_write; assumption.
    + intros g' [<- | Hin]; [|apply Hall, Hin].
      apply Hgrow, grows_record. apply has_name_after_write; assumption.
Qed.

Lemma first_pass_handleCommand (sg : list string) (m : CommandModule)
    (n : string) (w w' : World) :
  sound w -> resolved m n ->
  handleCommand sg m n w = (Fulfilled tt, w') ->
  sound w' /\ grows w w' /\
  forall t, In t (targets sg) -> has_name w' t n.
Proof.
  intros Hs Hname. rewrite handleCommand_unfold.
  set (w0 := record w _).
  assert (sound w0) as Hs0 by apply sound_record, Hs.
  assert (grows w w0) as Hg0 by apply grows_record.
  destruct sg as [|g sg]; intros H.
  - apply handleGlobalCommand_fulfilled in H as (evs & -> & _).
    assert (registry w0 GlobalTarget = Some (application_commands w0)) as Hreg
        by reflexivity.
    split; [|split].
    + apply sound_record, sound_after_write; assumption.
    + eapply grows_trans; [exact Hg0|].
      eapply grows_trans; [|apply grows_record].
      apply grows_after_write; assumption.
    + intros t [<- | []]. apply grows_record.
      apply has_name_after_write; assumption.
  - apply first_pass_scoped in H as (Hs' & Hgrow & Hall); try assumption.
    split; [exact Hs'|]. split; [exact (grows_trans _ _ _ Hg0 Hgrow)|].
    intros t Hin. change (In t (map GuildTarget (g :: sg))) in Hin.
    apply in_map_iff in Hin as (g' & <- & Hin). apply Hall, Hin.
Qed.

Lemma in_published_cons (file : string * Import) (files : list (string * Import))
    (p : string * CommandModule) :
  In p (published (file :: files)) <->
  In p (published [file]) \/ In p (published files).
Proof. rewrite published_cons. apply in_app_iff. Qed.

Lemma first_pass_files (sg : list string) (files : list (string * Import))
    (w w' : World) :
  sound w ->
  for_of files (sync_file sg) w = (Fulfilled tt, w') ->
  sound w' /\ grows w w' /\ all_loaded files /\
  forall p t, In p (published files) -> In t (targets sg) ->
              has_name w' t (resolveName (snd p) (fst p)).
Proof.
  revert w. induction files as [|[path i] files IH]; intros w Hs H.
  - injection H as <-. split; [exact Hs|]. split; [apply grows_refl|].
    split; [constructor|]. intros p t [].
  - rewrite for_of_cons in H.
    destruct (sync_file sg (path, i) w) as [[[]|e] w1] eqn:Hf; [|discriminate].
    destruct i as [m|e]; [|discriminate].
    rewrite sync_file_loaded in Hf.
    assert (sound w1 /\ grows w w1 /\
            forall p t, In p (published [(path, Loaded m)]) ->
                        In t (targets sg) ->
                        has_name w1 t (resolveName (snd p) (fst p)))
      as (Hs1 & Hg1 & Hn1).
    { rewrite published_loaded. destruct (publishable m).
      - apply first_pass_handleCommand in Hf as (Hs1 & Hg1 & Hn1);
          [|exact Hs|apply resolved_resolveName].
        split; [exact Hs1|]. split; [exact Hg1|].
        intros p t [<- | []] Ht. apply Hn1, Ht.
      - injection Hf as <-. split; [exact Hs|]. split; [apply grows_refl|].
        intros p t []. }
    destruct (IH _ Hs1 H) as (Hs' & Hg' & Hl & Hn').
    split; [exact Hs'|]. split; [eapply grows_trans; eassumption|].
    split; [constructor; [eexists; reflexivity | exact Hl]|].
    intros p t Hp Ht. apply in_published_cons in Hp as [Hp | Hp].
    + apply Hg', Hn1; assumption.
    + apply Hn'; assumption.
Qed.

(** ** A pass over registered names only edits *)

Lemma second_pass_target (t : Target) (n : string) (m : CommandModule)
    (w : World) :
  sound w -> has_name w t n -> resolved m n ->
  exists w' evs,
    reconcile_on t n m w = (Fulfilled tt, w') /\
    trace w' = trace w ++ evs /\
    kinds evs = reconciliation (t, Edit) /\
    sound w' /\ same_names w w'.
Proof.
  intros Hs (cmds & Hreg & Hin) Hname. pose proof Hs as [Ha _].
  assert (exists evs,
             reconcile_on t n m w
             = (Fulfilled tt, record (after_write t n m w cmds) evs) /\
             kinds evs = reconciliation (t, op_of n cmds)) as (evs & Hrun & Hk).
  { destruct t as [|g]; simpl in *.
    - injection Hreg as <-.
      destruct (handleGlobalCommand_run n m w) as [evs Hrun].
      rewrite !Ha in Hrun. destruct Hrun as [Hc Hrun].
      exists evs. split; [exact Hrun|]. unfold kinds. rewrite Hc. simpl.
      rewrite kind_write_request. reflexivity.
    - destruct (handleScopedGuild_run n m g w) as [evs Hrun].
      unfold resolved_guild in Hrun. rewrite Ha in Hrun.
      destruct (guilds w !! g) as [gs|]; [|discriminate].
      simpl in *. injection Hreg as <-. rewrite !Ha in Hrun.
      destruct Hrun as [Hc Hrun].
      exists evs. split; [exact Hrun|]. unfold kinds. rewrite Hc. simpl.
      rewrite kind_write_request. reflexivity. }
  rewrite (op_of_edit _ _ Hin) in Hk.
  eexists _, evs. split; [exact Hrun|]. split; [|split; [exact Hk|split]].
  - rewrite trace_record, trace_after_write. reflexivity.
  - apply sound_record, sound_after_write; assumption.
  - eapply same_names_trans; [|apply same_names_record].
    apply same_names_after_write; assumption.
Qed.

Lemma second_pass_scoped (sg : list string) (n : string) (m : CommandModule)
    (w : World) :
  sound w -> resolved m n ->
  (forall g, In g sg -> has_name w (GuildTarget g) n) ->
  exists w' evs,
    handleScopedGuildsCommand sg n m w = (Fulfilled tt, w') /\
    trace w' = trace w ++ evs /\
    kinds evs
    = flat_map reconciliation (map (fun t => (t, Edit)) (map GuildTarget sg)) /\
    sound w' /\ same_names w w'.
Proof.
  unfold handleScopedGuildsCommand. intros Hs Hname. revert w Hs.
  induction sg as [|g sg IH]; intros w Hs Hall.
  - exists w, []. simpl. rewrite app_nil_r.
    split; [reflexivity|]. split; [reflexivity|]. split; [reflexivity|].
    split; [exact Hs | apply same_names_refl].
  - destruct (second_pass_target (GuildTarget g) n m w Hs (Hall g (or_introl eq_refl)) Hname)
      as (w1 & evs1 & Hrun & Ht1 & Hk1 & Hs1 & Hn1).
    simpl in Hrun.
    destruct (IH w1 Hs1) as (w' & evs2 & Hrun2 & Ht2 & Hk2 & Hs2 & Hn2).
    { intros g' Hin. eapply same_names_has_name; [exact Hn1|].
      apply Hall. right. exact Hin. }
    exists w', (evs1 ++ evs2). rewrite for_of_cons, Hrun.
    split; [exact Hrun2|]. split; [|split; [|split]].
    + rewrite Ht2, Ht1, app_assoc. reflexivity.
    + rewrite kinds_app, Hk1, Hk2. reflexivity.
    + exact Hs2.
    + eapply same_names_trans; eassumption.
Qed.

Lemma second_pass_handleCommand (sg : list string) (m : CommandModule)
    (n : string) (w : World) :
  sound w -> resolved m n ->
  (forall t, In t (targets sg) -> has_name w t n) ->
  exists w' evs,
    handleCommand sg m n w = (Fulfilled tt, w') /\
    trace w' = trace w ++ evs /\
    kinds evs = flat_map reconciliation (map (fun t => (t, Edit)) (targets sg)) /\
    sound w' /\ same_names w w'.
Proof.
  intros Hs Hname Hall. rewrite handleCommand_unfold.
  set (d := LogDebug _). set (w0 := record w [d]).
  assert (sound w0) as Hs0 by apply sound_record, Hs.
  assert (same_names w w0) as Hn0 by apply same_names_record.
  assert (forall t, In t (targets sg) -> has_name w0 t n) as Hall0.
  { intros t Hin. eapply same_names_has_name; [exact Hn0 | apply Hall, Hin]. }
  assert (exists w' evs,
             match sg with
             | _ :: _ => handleScopedGuildsCommand sg n m
             | [] => handleGlobalCommand n m
             end w0 = (Fulfilled tt, w') /\
             trace w' = trace w0 ++ evs /\
             kinds evs
             = flat_map reconciliation (map (fun t => (t, Edit)) (targets sg)) /\
             sound w' /\ same_names w0 w')
    as (w' & evs & Hrun & Ht & Hk & Hs' & Hn').
  { destruct sg as [|g sg].
    - destruct (second_pass_target GlobalTarget n m w0 Hs0
                  (Hall0 _ (or_introl eq_refl)) Hname)
        as (w' & evs & Hrun & Ht & Hk & Hs' & Hn').
      exists w', evs. split; [exact Hrun|]. split; [exact Ht|].
      split; [|split; assumption]. rewrite Hk. reflexivity.
    - apply second_pass_scoped; try assumption.
      intros g' Hin. apply Hall0. simpl.
      change (In (GuildTarget g') (map GuildTarget (g :: sg))).
      apply in_map. exact Hin. }
  exists w', (d :: evs). split; [exact Hrun|]. split; [|split; [|split]].
  - rewrite Ht. unfold w0. rewrite trace_record, <- app_assoc. reflexivity.
  - exact Hk.
  - exact Hs'.
  - exact (same_names_trans _ _ _ Hn0 Hn').
Qed.

Lemma second_pass_files (sg : list string) (files : list (string * Import))
    (w : World) :
  sound w -> all_loaded files ->
  (forall p t, In p (published files) -> In t (targets sg) ->
               has_name w t (resolveName (snd p) (fst p))) ->
  exists w' evs,
    for_of files (sync_file sg) w = (Fulfilled tt, w') /\
    trace w' = trace w ++ evs /\
    kinds evs
    = flat_map reconciliation (map (fun t => (t, Edit)) (plan sg files)) /\
    sound w' /\ same_names w w'.
Proof.
  revert w. induction files as [|[path i] files IH]; intros w Hs Hl Hall.
  - exists w, []. rewrite app_nil_r.
    split; [reflexivity|]. split; [reflexivity|]. split; [reflexivity|].
    split; [exact Hs | apply same_names_refl].
  - apply List.Forall_cons_iff in Hl as [[m Hm] Hl]. simpl in Hm. subst i.
    assert (exists w1 evs1,
               sync_file sg (path, Loaded m) w = (Fulfilled tt, w1) /\
               trace w1 = trace w ++ evs1 /\
               kinds evs1
               = flat_map reconciliation
                   (map (fun t => (t, Edit)) (plan sg [(path, Loaded m)])) /\
               sound w1 /\ same_names w w1)
      as (w1 & evs1 & Hrun1 & Ht1 & Hk1 & Hs1 & Hn1).
    { rewrite sync_file_loaded, plan_loaded.
      destruct (publishable m) eqn:Hp.
      - destruct (second_pass_handleCommand sg m (resolveName m path) w Hs
                    (resolved_resolveName m path))
          as (w1 & evs1 & Hrun & Ht & Hk & Hs1 & Hn1).
        { intros t Ht. apply (Hall (path, m)); [|exact Ht].
          apply in_published_cons. left. rewrite published_loaded, Hp.
          left. reflexivity. }
        exists w1, evs1. auto.
      - exists w, []. rewrite app_nil_r.
        split; [reflexivity|]. split; [reflexivity|]. split; [reflexivity|].
        split; [exact Hs | apply same_names_refl]. }
    destruct (IH w1 Hs1 Hl) as (w' & evs2 & Hrun2 & Ht2 & Hk2 & Hs2 & Hn2).
    { intros p t Hp Ht. eapply same_names_has_name; [exact Hn1|].
      apply Hall; [|exact Ht]. apply in_published_cons. right. exact Hp. }
    exists w', (evs1 ++ evs2). rewrite for_of_cons, Hrun1.
    split; [exact Hrun2|]. split; [|split; [|split]].
    + rewrite Ht2, Ht1, app_assoc. reflexivity.
    + rewrite kinds_app, Hk1, Hk2, (plan_cons sg _ files), map_app,
        flat_map_app.
      reflexivity.
    + exact Hs2.
    + eapply same_names_trans; eassumption.
Qed.

Lemma count_create_edits (t : Target) (ts : list Target) :
  count (KCreate t)
    (flat_map reconciliation (map (fun t' => (t', Edit)) ts)) = 0%nat.
Proof.
  induction ts as [|t' ts IH]; [reflexivity|].
  simpl map. simpl flat_map. rewrite count_app, IH.
  unfold reconciliation, count. destruct t'; reflexivity.
Qed.

Lemma same_names_length (w w' : World) (t : Target) :
  same_names w w' -> length <$> registry w' t = length <$> registry w t.
Proof.
  intros Hs. specialize (Hs t).
  destruct (registry w' t) as [c'|], (registry w t) as [c|];
    simpl in *; try discriminate; [|reflexivity].
  injection Hs as Hs. apply (f_equal (@length string)) in Hs.
  rewrite !length_map in Hs. congruence.
Qed.

(** C8. Reconciliation is idempotent: when the remote refuses no call and
    is well formed (distinct ids in each registry), and a first pass over
    the definitions completes, a second pass over the same definitions
    completes too, makes for every published definition and target one
    fetch followed by an edit and never a create, and leaves every registry
    with the names, hence the number of entries, it had after the first
    pass. *)
Theorem second_pass_only_updates
    (scopedGuilds : list string) (files : list (string * Import))
    (w w1 : World) :
  accepting w -> well_formed w ->
  sync scopedGuilds files w = (Fulfilled tt, w1) ->
  exists w2 evs,
    sync scopedGuilds files w1 = (Fulfilled tt, w2) /\
    trace w2 = trace w1 ++ evs /\
    kinds evs
    = flat_map reconciliation
        (map (fun t => (t, Edit)) (plan scopedGuilds files)) /\
    (forall t, count (KCreate t) (kinds evs) = 0%nat) /\
    (forall t, length <$> registry w2 t = length <$> registry w1 t) /\
    same_names w1 w2.
Proof.
  intros Ha Hwf H1. rewrite sync_unfold in H1.
  assert (sound (record w [LogInfo "Syncing commands"])) as Hs
      by (apply sound_record; split; assumption).
  destruct (first_pass_files _ _ _ _ Hs H1) as (Hs1 & _ & Hl & Hn).
  set (d := LogInfo "Syncing commands").
  destruct (second_pass_files scopedGuilds files (record w1 [d]))
    as (w2 & evs & Hrun & Ht & Hk & _ & Hn2).
  - apply sound_record, Hs1.
  - exact Hl.
  - intros p t Hp Hin. apply grows_record. apply Hn; assumption.
  - assert (same_names w1 w2) as Hsame.
    { eapply same_names_trans; [apply same_names_record | exact Hn2]. }
    exists w2, (d :: evs). rewrite sync_unfold.
    split; [exact Hrun|]. split; [|split; [exact Hk|split; [|split]]].
    + rewrite Ht, trace_record, <- app_assoc. reflexivity.
    + intros t. change (kinds (d :: evs)) with (kinds evs).
      rewrite Hk. apply count_create_edits.
    + intros t. apply same_names_length, Hsame.
    + exact Hsame.
Qed.

Lemma accepting_empty_remote : accepting empty_remote.
Proof. intros r. reflexivity. Qed.

Lemma well_formed_empty_remote : well_formed empty_remote.
Proof.
  intros [|g] cmds H; simpl in H.
  - injection H as <-. split; constructor.
  - rewrite lookup_empty in H. discriminate.
Qed.

Lemma second_pass_only_updates_witness :
  exists w2 evs,
    sync [] [ping_js; ban_js] (snd (sync [] [ping_js; ban_js] empty_remote))
    = (Fulfilled tt, w2) /\
    trace w2 = trace (snd (sync [] [ping_js; ban_js] empty_remote)) ++ evs /\
    kinds evs
    = flat_map reconciliation
        (map (fun t => (t, Edit)) (plan [] [ping_js; ban_js])) /\
    (forall t, count (KCreate t) (kinds evs) = 0%nat) /\
    (forall t, length <$> registry w2 t
               = length <$> registry
                              (snd (sync [] [ping_js; ban_js] empty_remote)) t) /\
    same_names (snd (sync [] [ping_js; ban_js] empty_remote)) w2.
Proof.
  apply (second_pass_only_updates [] [ping_js; ban_js] empty_remote).
  - exact accepting_empty_remote.
  - exact well_formed_empty_remote.
  - vm_compute. reflexivity.
Defined.

(** * Further properties of the code *)

(** ** Resolved names *)

Lemma length_substring_0 (k : nat) (s : string) :
  String.length (String.substring 0 k s) = Nat.min k (String.length s).
Proof.
  revert k. induction s as [|c s IH]; intros [|k]; simpl; try reflexivity.
  rewrite IH. reflexivity.
Qed.

Lemma prefix_substring_0 (k : nat) (s : string) :
  String.prefix (String.substring 0 k s) s = true.
Proof.
  revert k. induction s as [|c s IH]; intros [|k]; simpl; try reflexivity.
  destruct (ascii_dec c c) as [_|Hne]; [apply IH | congruence].
Qed.

(** Without an explicit name, the resolved name is the base name cut three
    characters short: it is a prefix of the base name, three characters
    shorter, and empty when the base name has at most three characters. *)
Theorem resolveName_fallback_is_truncated_base
    (module : CommandModule) (path : string) :
  m_name module = None ->
  String.prefix (resolveName module path) (basename path) = true /\
  String.length (resolveName module path)
  = (String.length (basename path) - 3)%nat /\
  ((String.length (basename path) <= 3)%nat ->
   resolveName module path = ""%string).
Proof.
  intros Hn. unfold resolveName, slice_0_neg. rewrite Hn.
  split; [apply prefix_substring_0|].
  assert (String.length
            (String.substring 0 (String.length (basename path) - 3)
               (basename path))
          = (String.length (basename path) - 3)%nat) as Hlen
      by (rewrite length_substring_0; lia).
  split; [exact Hlen|].
  intros Hle.
  destruct (String.substring 0 _ _); [reflexivity|]. simpl in Hlen. lia.
Qed.

Lemma resolveName_fallback_is_truncated_base_witness :
  String.prefix (resolveName (slash None) "/srv/bot/dist/src/commands/a.js")
    (basename "/srv/bot/dist/src/commands/a.js") = true /\
  String.length (resolveName (slash None) "/srv/bot/dist/src/commands/a.js")
  = (String.length (basename "/srv/bot/dist/src/commands/a.js") - 3)%nat /\
  resolveName (slash None) "/srv/bot/dist/src/commands/js" = ""%string.
Proof.
  destruct (resolveName_fallback_is_truncated_base
              (slash None) "/srv/bot/dist/src/commands/a.js" eq_refl)
    as (Hp & Hl & _).
  destruct (resolveName_fallback_is_truncated_base
              (slash None) "/srv/bot/dist/src/commands/js" eq_refl)
    as (_ & _ & He).
  split; [exact Hp|]. split; [exact Hl|].
  apply He. vm_compute. lia.
Defined.

Lemma base_go_no_slash (path last cur : string) :
  contains "/"%char last = false -> contains "/"%char cur = false ->
  contains "/"%char (base_go last cur path) = false.
Proof.
  revert last cur. induction path as [|c path IH]; intros last cur Hl Hc; simpl.
  - destruct (String.eqb cur ""); assumption.
  - destruct (is_slash c) eqn:E.
    + apply IH; [|reflexivity]. destruct (String.eqb cur ""); assumption.
    + apply IH; [exact Hl|]. rewrite contains_append, Hc. simpl.
      unfold is_slash in E. rewrite E. reflexivity.
Qed.

Lemma before_first_contains (sep c : ascii) (s : string) :
  contains c s = false -> contains c (before_first sep s) = false.
Proof.
  induction s as [|x s IH]; simpl; [reflexivity|].
  intros H. apply orb_false_iff in H as [H1 H2].
  destruct (Ascii.eqb x sep); [reflexivity|]. simpl. rewrite H1. apply IH, H2.
Qed.

Lemma before_first_no_sep (sep : ascii) (s : string) :
  contains sep (before_first sep s) = false.
Proof.
  induction s as [|x s IH]; simpl; [reflexivity|].
  destruct (Ascii.eqb x sep) eqn:E; [reflexivity|]. simpl. rewrite E. exact IH.
Qed.

(** The base name of a path holds no separator: neither a slash nor the
    question mark that starts a query. *)
Theorem basename_has_no_separator (path : string) :
  contains "/"%char (basename path) = false /\
  contains "?"%char (basename path) = false.
Proof.
  unfold basename, parse_base. split.
  - apply before_first_contains, base_go_no_slash; reflexivity.
  - apply before_first_no_sep.
Qed.

(** The resolved name does not depend on the directory of the file: files
    of the same name in two directories resolve to the same name. *)
Theorem resolveName_ignores_directory
    (module : CommandModule) (dir1 dir2 file : string) :
  contains "/"%char file = false -> file <> ""%string ->
  resolveName module (dir1 ++ "/" ++ file)
  = resolveName module (dir2 ++ "/" ++ file).
Proof.
  intros Hf Hne. unfold resolveName, basename, parse_base.
  rewrite !base_go_last_component by assumption. reflexivity.
Qed.

Lemma resolveName_ignores_directory_witness :
  resolveName (slash None) ("/srv/bot/dist/src/commands/fun" ++ "/" ++ "ping.js")
  = resolveName (slash None)
      ("/srv/bot/dist/src/commands/misc" ++ "/" ++ "ping.js").
Proof.
  apply (resolveName_ignores_directory (slash None)
           "/srv/bot/dist/src/commands/fun" "/srv/bot/dist/src/commands/misc"
           "ping.js").
  - reflexivity.
  - discriminate.
Defined.

(** ** Options and kinds *)

(** The transformer gives a parameter list exactly for the kinds Slash and
    Both, compared as values: for any other kind it gives nothing, whatever
    options the module has; for Slash and Both a module without options
    gets the empty list. *)
Theorem optionsTransformer_absent_iff (module : CommandModule) :
  (optionsTransformer module = None <->
   m_type module <> Slash /\ m_type module <> Both) /\
  (m_type module = Slash \/ m_type module = Both ->
   m_options module = None ->
   optionsTransformer module = Some []).
Proof.
  unfold optionsTransformer. split.
  - destruct (m_type module =? Slash) eqn:E1; simpl.
    + apply Z.eqb_eq in E1. split; [discriminate | intros [H _]; contradiction].
    + apply Z.eqb_neq in E1. destruct (m_type module =? Both) eqn:E2.
      * apply Z.eqb_eq in E2. split; [discriminate | intros [_ H]; contradiction].
      * apply Z.eqb_neq in E2. split; [auto | reflexivity].
  - intros Hk ->. destruct Hk as [-> | ->]; reflexivity.
Qed.

Lemma optionsTransformer_absent_iff_witness :
  optionsTransformer (slash None) = Some [] /\
  optionsTransformer text_only = None.
Proof.
  split.
  - apply (optionsTransformer_absent_iff (slash None));
      [left; reflexivity | reflexivity].
  - apply (optionsTransformer_absent_iff text_only). split; discriminate.
Defined.

Lemma omit_omit (k : string) (o : JsObj) : omit k (omit k o) = omit k o.
Proof.
  induction o as [|[k' v] o IH]; simpl; [reflexivity|].
  destruct (String.eqb k' k) eqn:E; simpl; [exact IH|].
  rewrite E, IH. reflexivity.
Qed.

Lemma strip_handler_idempotent (el : JsObj) :
  strip_handler (strip_handler el) = strip_handler el.
Proof.
  unfold strip_handler.
  destruct (truthy (get "autocomplete" el)) eqn:E; [|rewrite E; reflexivity].
  rewrite get_omit_other by discriminate. rewrite E. apply omit_omit.
Qed.

(** Transforming is idempotent: the options the transformer returns are
    returned unchanged when they are transformed again. *)
Theorem optionsTransformer_idempotent
    (module : CommandModule) (out : list JsObj) :
  optionsTransformer module = Some out ->
  optionsTransformer (with_options module (Some out)) = Some out.
Proof.
  unfold optionsTransformer. simpl.
  destruct ((m_type module =? Slash) || (m_type module =? Both)); [|discriminate].
  intros [= <-]. f_equal. destruct (m_options module) as [opts|]; [|reflexivity].
  rewrite map_map. apply map_ext. intros el. apply strip_handler_idempotent.
Qed.

Lemma optionsTransformer_idempotent_witness :
  optionsTransformer
    (with_options search
       (Some [[("name", VStr "query"); ("type", VNum 3);
               ("autocomplete", VBool true)];
              [("name", VStr "limit"); ("type", VNum 4);
               ("required", VBool false)]]))
  = Some [[("name", VStr "query"); ("type", VNum 3);
           ("autocomplete", VBool true)];
          [("name", VStr "limit"); ("type", VNum 4);
           ("required", VBool false)]].
Proof.
  apply (optionsTransformer_idempotent search). reflexivity.
Defined.

Lemma land_14_lor_1 (t : Z) : Z.land 14 (Z.lor t 1) = Z.land 14 t.
Proof. rewrite Z.land_lor_distr_r. change (Z.land 14 1) with 0. apply Z.lor_0_r. Qed.

(** Publishability looks at the kind only and not at its Text bit: a module
    is publishable exactly when the module with the Text bit added to its
    kind is, whatever its name, description and options. *)
Theorem publishable_ignores_text_bit (module other : CommandModule) :
  m_type other = Z.lor (m_type module) Text ->
  publishable other = publishable module.
Proof.
  intros H. rewrite !publishable_mask, H. unfold Text.
  rewrite land_14_lor_1. reflexivity.
Qed.

Lemma publishable_ignores_text_bit_witness :
  publishable (with_type (slash None) Both) = publishable (slash None).
Proof.
  apply (publishable_ignores_text_bit (slash None) (with_type (slash None) Both)).
  reflexivity.
Defined.

(** ** Discovery of the files *)



Lemma getFiles_of_files (dirent : Dirent) :
  forall dir,
    map snd (getFiles_of dir dirent) = map snd (files_of dirent) /\
    (files_named dirent = true ->
     map (fun y => (parse_base (fst y), snd y)) (getFiles_of dir dirent)
     = files_of dirent).
Proof.
  induction dirent as [name content | name entries IH] using Dirent_tree_ind;
    intros dir.
  - split; [reflexivity|]. simpl. unfold file_name, path_resolve, parse_base.
    intros H. apply andb_true_iff in H as [Hne Hs].
    apply negb_true_iff in Hne, Hs. apply String.eqb_neq in Hne.
    rewrite base_go_last_component by assumption. reflexivity.
  - simpl. induction IH as [|d ds Hd _ IHds]; simpl; [split; reflexivity|].
    destruct IHds as [IH1 IH2].
    destruct (Hd (path_resolve dir name)) as [Hd1 Hd2].
    split.
    + rewrite !map_app, IH1, Hd1. reflexivity.
    + intros H. apply andb_true_iff in H as [H1 H2].
      rewrite map_app, IH2, Hd2 by assumption. reflexivity.
Qed.

(** [getFiles] yields the files of the tree and nothing else, depth first
    in the order of the listings: directories are walked, not yielded.
    When the files have file names (not empty, no slash), the base name of
    each yielded path is the name of its file. *)
Theorem getFiles_yields_the_files (dir : string) (dirents : list Dirent) :
  map snd (getFiles dir dirents) = map snd (flat_map files_of dirents) /\
  (forallb files_named dirents = true ->
   map (fun y => (parse_base (fst y), snd y)) (getFiles dir dirents)
   = flat_map files_of dirents).
Proof.
  unfold getFiles. induction dirents as [|d ds [IH1 IH2]]; simpl;
    [split; reflexivity|].
  destruct (getFiles_of_files d dir) as [Hd1 Hd2]. split.
  - rewrite !map_app, IH1, Hd1. reflexivity.
  - intros H. apply andb_true_iff in H as [H1 H2].
    rewrite map_app, IH2, Hd2 by assumption. reflexivity.
Qed.

Lemma getFiles_yields_the_files_witness :
  map (fun y => (parse_base (fst y), snd y))
    (getFiles "/srv/bot/dist/src/commands" commands_tree)
  = flat_map files_of commands_tree.
Proof.
  apply (getFiles_yields_the_files "/srv/bot/dist/src/commands" commands_tree).
  reflexivity.
Defined.

(** ** What holds of every pass, completed or not *)

Lemma request_target_write_request (t : Target) (n : string) (m : CommandModule)
    (cmds : list RemoteEntry) :
  request_target (write_request t n m cmds) = t.
Proof. unfold write_request. destruct (find _ _); reflexivity. Qed.

Lemma reconcile_on_outcome (t : Target) (n : string) (m : CommandModule)
    (w : World) :
  exists evs,
    List.Forall (fun q => request_target q = t) (calls evs) /\
    (snd (reconcile_on t n m w) = record w evs \/
     exists cmds,
       registry w t = Some cmds /\
       snd (reconcile_on t n m w) = record (after_write t n m w cmds) evs).
Proof.
  destruct t as [|g]; simpl.
  - destruct (handleGlobalCommand_run n m w) as [evs Hrun]. exists evs.
    destruct (refuses w (CommandsFetch GlobalTarget)).
    { destruct Hrun as [Hc ->]. rewrite Hc. split; [repeat constructor | auto]. }
    destruct Hrun as [Hc Hrun]. rewrite Hc. split.
    { repeat constructor. apply request_target_write_request. }
    destruct (refuses w (write_request _ _ _ _)); rewrite Hrun; simpl; eauto.
  - destruct (handleScopedGuild_run n m g w) as [evs Hrun]. exists evs.
    destruct (resolved_guild w g) as [gs|] eqn:Hg.
    2: { destruct Hrun as [Hc ->]. rewrite Hc. split; [repeat constructor | auto]. }
    simpl in Hrun. apply resolved_guild_registry in Hg.
    destruct (refuses w (CommandsFetch (GuildTarget g))).
    { destruct Hrun as [Hc ->]. rewrite Hc. split; [repeat constructor | auto]. }
    destruct Hrun as [Hc Hrun]. rewrite Hc. split.
    { repeat constructor. apply request_target_write_request. }
    destruct (refuses w (write_request _ _ _ _)); rewrite Hrun; simpl; eauto.
Qed.

Section PassInvariant.

Variable scopedGuilds : list string.

(** A relation between the world before and after, kept by every step. *)
Variable R : World -> World -> Prop.

Hypothesis R_refl : forall w, R w w.
Hypothesis R_trans : forall w1 w2 w3, R w1 w2 -> R w2 w3 -> R w1 w3.
Hypothesis R_log : forall w evs, calls evs = [] -> R w (record w evs).
Hypothesis R_reconcile :
  forall t n m w, In t (targets scopedGuilds) ->
                  R w (snd (reconcile_on t n m w)).

Lemma for_of_invariant {A} (body : A -> Promise unit) (xs : list A) :
  (forall x w, In x xs -> R w (snd (body x w))) ->
  forall w, R w (snd (for_of xs body w)).
Proof.
  induction xs as [|x xs IH]; intros Hbody w; [apply R_refl|].
  rewrite for_of_cons. pose proof (Hbody x w (or_introl eq_refl)) as Hx.
  destruct (body x w) as [[[]|e] w1]; simpl in Hx; [|exact Hx].
  eapply R_trans; [exact Hx|]. apply IH. intros y w' Hy.
  apply Hbody. right. exact Hy.
Qed.

Lemma handleCommand_invariant (m : CommandModule) (n : string) (w : World) :
  R w (snd (handleCommand scopedGuilds m n w)).
Proof.
  rewrite handleCommand_unfold.
  set (d := LogDebug ("Checking if " ++ n ++ " is already registered")).
  apply (R_trans _ (record w [d])); [apply R_log; reflexivity|].
  generalize (record w [d]). intros w0. destruct scopedGuilds as [|g sg].
  - apply (R_reconcile GlobalTarget n m w0). left. reflexivity.
  - unfold handleScopedGuildsCommand. apply for_of_invariant.
    intros g' w1 Hin. apply (R_reconcile (GuildTarget g') n m w1).
    change (In (GuildTarget g') (map GuildTarget (g :: sg))).
    apply in_map. exact Hin.
Qed.

Lemma sync_file_invariant (file : string * Import) (w : World) :
  R w (snd (sync_file scopedGuilds file w)).
Proof.
  destruct file as [path [m|e]].
  - rewrite sync_file_loaded. destruct (publishable m).
    + apply handleCommand_invariant.
    + apply R_refl.
  - rewrite sync_file_unloadable. apply R_refl.
Qed.

Lemma sync_invariant (files : list (string * Import)) (w : World) :
  R w (snd (sync scopedGuilds files w)).
Proof.
  rewrite sync_unfold.
  apply (R_trans _ (record w [LogInfo "Syncing commands"]));
    [apply R_log; reflexivity|].
  apply for_of_invariant. intros file w' _. apply sync_file_invariant.
Qed.

End PassInvariant.

(** Whatever the outcome of a pass, every call it makes is about one of
    its targets: without scoped guilds the application's registry only (no
    guild is resolved), with scoped guilds these guilds only (the
    application's registry is never fetched or written). *)
Theorem pass_calls_its_targets_only
    (scopedGuilds : list string) (files : list (string * Import)) (w : World) :
  exists evs,
    trace (snd (sync scopedGuilds files w)) = trace w ++ evs /\
    List.Forall (fun q => In (request_target q) (targets scopedGuilds))
      (calls evs).
Proof.
  apply (sync_invariant scopedGuilds
           (fun w w' =>
              exists evs,
                trace w' = trace w ++ evs /\
                List.Forall
                  (fun q => In (request_target q) (targets scopedGuilds))
                  (calls evs))).
  - intros w0. exists []. rewrite app_nil_r. split; [reflexivity | constructor].
  - intros w1 w2 w3 (evs1 & Ht1 & Hc1) (evs2 & Ht2 & Hc2).
    exists (evs1 ++ evs2). split.
    + rewrite Ht2, Ht1, app_assoc. reflexivity.
    + unfold calls. rewrite flat_map_app. apply List.Forall_app. auto.
  - intros w0 evs Hc. exists evs. rewrite Hc. split; [reflexivity | constructor].
  - intros t n m w0 Hin.
    destruct (reconcile_on_outcome t n m w0) as (evs & Hc & Hw).
    exists evs. split.
    + destruct Hw as [-> | (cmds & _ & ->)]; [reflexivity|].
      rewrite trace_record, trace_after_write. reflexivity.
    + eapply List.Forall_impl; [|exact Hc]. intros q ->. exact Hin.
Qed.

(** Whatever the outcome of a pass, a registry that is not one of its
    targets is left as it was. *)
Theorem pass_leaves_other_registries
    (scopedGuilds : list string) (files : list (string * Import)) (w : World)
    (t : Target) :
  ~ In t (targets scopedGuilds) ->
  registry (snd (sync scopedGuilds files w)) t = registry w t.
Proof.
  intros Ht.
  apply (sync_invariant scopedGuilds
           (fun w w' => registry w' t = registry w t)).
  - reflexivity.
  - intros w1 w2 w3 H1 H2. rewrite H2. exact H1.
  - intros w0 evs _. apply registry_record.
  - intros t0 n m w0 Hin.
    destruct (reconcile_on_outcome t0 n m w0) as (evs & _ & Hw).
    destruct Hw as [-> | (cmds & _ & ->)]; rewrite registry_record;
      [reflexivity|].
    apply registry_after_write_other. intros ->. contradiction.
Qed.

Lemma pass_leaves_other_registries_witness :
  registry (snd (sync ["g2"]%string [ping_js; ban_js] remote_with_commands))
    GlobalTarget
  = registry remote_with_commands GlobalTarget.
Proof.
  apply (pass_leaves_other_registries ["g2"]%string [ping_js; ban_js]
           remote_with_commands GlobalTarget).
  intros [H | []]. discriminate H.
Defined.

Lemma ids_entries_after_write (n : string) (m : CommandModule) (next : N)
    (cmds : list RemoteEntry) :
  exists more,
    map entry_id (entries_after_write n m next cmds)
    = map entry_id cmds ++ more.
Proof.
  unfold entries_after_write. destruct (find (by_name n) cmds).
  - exists []. rewrite ids_edit_in, app_nil_r. reflexivity.
  - eexists. rewrite map_app. reflexivity.
Qed.

(** A pass never removes a registered command: whatever its outcome, each
    registry holds afterwards the ids it held before, in the same order,
    followed by those of the commands the pass created. A command whose
    definition is gone from the sources stays registered. *)
Theorem pass_never_unregisters
    (scopedGuilds : list string) (files : list (string * Import)) (w : World)
    (t : Target) (cmds : list RemoteEntry) :
  registry w t = Some cmds ->
  exists cmds' more,
    registry (snd (sync scopedGuilds files w)) t = Some cmds' /\
    map entry_id cmds' = map entry_id cmds ++ more.
Proof.
  revert t cmds.
  apply (sync_invariant scopedGuilds
           (fun w w' =>
              forall t cmds, registry w t = Some cmds ->
                exists cmds' more,
                  registry w' t = Some cmds' /\
                  map entry_id cmds' = map entry_id cmds ++ more)).
  - intros w0 t cmds H. exists cmds, []. rewrite app_nil_r. auto.
  - intros w1 w2 w3 H1 H2 t cmds H.
    destruct (H1 t cmds H) as (cmds1 & more1 & Hr1 & Hi1).
    destruct (H2 t cmds1 Hr1) as (cmds2 & more2 & Hr2 & Hi2).
    exists cmds2, (more1 ++ more2). split; [exact Hr2|].
    rewrite Hi2, Hi1, app_assoc. reflexivity.
  - intros w0 evs _ t cmds H. exists cmds, []. rewrite registry_record, app_nil_r.
    auto.
  - intros t0 n m w0 _ t cmds H.
    destruct (reconcile_on_outcome t0 n m w0) as (evs & _ & Hw).
    destruct Hw as [-> | (cmds0 & Hr0 & ->)]; rewrite registry_record.
    + exists cmds, []. rewrite app_nil_r. auto.
    + destruct (decide (t0 = t)) as [-> | Hne].
      * rewrite (registry_after_write_same _ _ _ _ _ Hr0).
        assert (cmds0 = cmds) as -> by congruence.
        destruct (ids_entries_after_write n m (next_id w0) cmds) as [more Hm].
        eauto.
      * rewrite registry_after_write_other by exact Hne.
        exists cmds, []. rewrite app_nil_r. auto.
Qed.

Lemma pass_never_unregisters_witness :
  exists cmds' more,
    registry (snd (sync [] [ping_js; ban_js] remote_with_commands)) GlobalTarget
    = Some cmds' /\
    map entry_id cmds'
    = map entry_id (application_commands remote_with_commands) ++ more.
Proof.
  apply (pass_never_unregisters [] [ping_js; ban_js] remote_with_commands
           GlobalTarget).
  reflexivity.
Defined.

(** ** Failures of the remote and of the loader *)

(** A guild that cannot be resolved, because the remote does not know it or
    refuses the request for any reason, ends the handler with the error
    "Found no Guild with id ...!": the remote's own reason is dropped, and
    the guild's commands are neither fetched nor written. *)
Theorem unresolved_guild_reason_is_replaced
    (n : string) (m : CommandModule) (g : string) (w : World) :
  (exists e, refuses w (GuildsFetch g) = Some e) \/ guilds w !! g = None ->
  exists evs,
    handleScopedGuild n m g w
    = (Rejected (VError ("Found no Guild with id " ++ g ++ "!")), record w evs) /\
    calls evs = [GuildsFetch g].
Proof.
  intros H. destruct (handleScopedGuild_run n m g w) as [evs Hrun].
  assert (resolved_guild w g = None) as Hg.
  { unfold resolved_guild. destruct H as [[e ->] | H]; [reflexivity|].
    destruct (refuses w (GuildsFetch g)); [reflexivity | exact H]. }
  rewrite Hg in Hrun. destruct Hrun as [Hc Hrun]. exists evs. split; assumption.
Qed.

Lemma unresolved_guild_reason_is_replaced_witness :
  exists evs,
    handleScopedGuild "ping" (slash None) "g2" remote_hiding_guilds
    = (Rejected (VError ("Found no Guild with id " ++ "g2" ++ "!")),
       record remote_hiding_guilds evs) /\
    calls evs = [GuildsFetch "g2"].
Proof.
  apply (unresolved_guild_reason_is_replaced "ping" (slash None) "g2"
           remote_hiding_guilds).
  left. exists missing_access. reflexivity.
Defined.

(** When the remote refuses to list the commands of a target, the handler
    rejects with the remote's reason; no create or edit is attempted and
    the registries are left as they were. *)
Theorem refused_fetch_writes_nothing
    (t : Target) (n : string) (m : CommandModule) (w : World)
    (cmds : list RemoteEntry) (e : JsVal) :
  reachable w t = Some cmds ->
  refuses w (CommandsFetch t) = Some e ->
  exists evs,
    reconcile_on t n m w = (Rejected e, record w evs) /\
    calls evs = resolution t ++ [CommandsFetch t].
Proof.
  intros Hr Hf. destruct t as [|g]; simpl in *.
  - destruct (handleGlobalCommand_run n m w) as [evs Hrun].
    rewrite Hf in Hrun. destruct Hrun as [Hc Hrun]. exists evs. auto.
  - destruct (handleScopedGuild_run n m g w) as [evs Hrun].
    destruct (resolved_guild w g) as [gs|]; [|discriminate].
    simpl in Hrun. rewrite Hf in Hrun. destruct Hrun as [Hc Hrun].
    exists evs. auto.
Qed.

Lemma refused_fetch_writes_nothing_witness :
  exists evs,
    reconcile_on GlobalTarget "ping" (slash None) remote_refusing_fetch
    = (Rejected missing_access, record remote_refusing_fetch evs) /\
    calls evs = resolution GlobalTarget ++ [CommandsFetch GlobalTarget].
Proof.
  apply (refused_fetch_writes_nothing GlobalTarget "ping" (slash None)
           remote_refusing_fetch []).
  - reflexivity.
  - reflexivity.
Defined.

(** A file that does not load rejects the pass with the reason of the
    import: the files before it have been processed and their changes
    stay, nothing is done for it, and the files after it are not
    imported. *)
Theorem load_failure_ends_pass
    (scopedGuilds : list string) (before after : list (string * Import))
    (path : string) (e : JsVal) (w w1 : World) :
  sync scopedGuilds before w = (Fulfilled tt, w1) ->
  sync scopedGuilds (before ++ (path, Unloadable e) :: after) w
  = (Rejected e, w1).
Proof.
  rewrite !sync_unfold. intros Hb.
  rewrite for_of_app, Hb, for_of_cons, sync_file_unloadable. reflexivity.
Qed.

Lemma load_failure_ends_pass_witness :
  sync [] ([ping_js] ++ broken_js :: [ban_js]) empty_remote
  = (Rejected (VError "Unexpected token"),
     snd (sync [] [ping_js] empty_remote)).
Proof.
  apply (load_failure_ends_pass [] [ping_js] [ban_js]).
  vm_compute. reflexivity.
Defined.

(** ** Files without a publishable module *)

Lemma for_of_relevant (sg : list string) (files : list (string * Import))
    (w : World) :
  for_of files (sync_file sg) w
  = for_of (List.filter relevant files) (sync_file sg) w.
Proof.
  revert w. induction files as [|[path i] files IH]; intros w; [reflexivity|].
  simpl List.filter. unfold relevant at 1. simpl snd. destruct i as [m|e].
  - destruct (publishable m) eqn:Hp.
    + rewrite !for_of_cons. destruct (sync_file sg (path, Loaded m) w) as [[[]|e] w1];
        [apply IH | reflexivity].
    + rewrite for_of_cons, sync_file_loaded, Hp. apply IH.
  - rewrite !for_of_cons. rewrite sync_file_unloadable. reflexivity.
Qed.

(** Files whose module is not publishable are passed over without a trace:
    a pass over the discovered files does what the pass over the files
    that fail to load or hold a publishable module does, with the same
    outcome, calls, log and registries. *)
Theorem unpublishable_files_are_transparent
    (scopedGuilds : list string) (files : list (string * Import)) (w : World) :
  sync scopedGuilds files w
  = sync scopedGuilds (List.filter relevant files) w.
Proof. rewrite !sync_unfold. apply for_of_relevant. Qed.

(** ** Matching by name *)

Lemma find_first_match (n : string) (before after : list RemoteEntry)
    (e : RemoteEntry) :
  List.Forall (fun x => entry_name x <> n) before ->
  entry_name e = n ->
  find (by_name n) (before ++ e :: after) = Some e.
Proof.
  intros Hb He. induction Hb as [|x before Hx _ IH]; simpl.
  - unfold by_name. rewrite He, String.eqb_refl. reflexivity.
  - unfold by_name at 1. apply String.eqb_neq in Hx. rewrite Hx. exact IH.
Qed.

(** When the target holds entries of the resolved name, the handler edits
    the first of them, by its id, and creates nothing; the name is compared
    as it is, and later entries of the same name are not touched. *)
Theorem edit_goes_to_first_match
    (t : Target) (n : string) (m : CommandModule) (w : World)
    (before after : list RemoteEntry) (e : RemoteEntry) :
  reachable w t = Some (before ++ e :: after) ->
  refuses w (CommandsFetch t) = None ->
  List.Forall (fun x => entry_name x <> n) before ->
  entry_name e = n ->
  exists r w' evs,
    reconcile_on t n m w = (r, w') /\
    trace w' = trace w ++ evs /\
    calls evs
    = resolution t
      ++ [CommandsFetch t;
          CommandEdit t (entry_id e)
            {| data_name := m_name m;
               data_description := m_description m;
               data_options := optionsTransformer m;
               data_type := ChatInput |}].
Proof.
  intros Hr Hf Hb He.
  destruct (reconcile_on_run t n m w _ Hr Hf) as (r & w' & evs & Hrun & Ht & Hc).
  exists r, w', evs. split; [exact Hrun|]. split; [exact Ht|].
  rewrite Hc. unfold write_request.
  rewrite (find_first_match n before after e Hb He). reflexivity.
Qed.

Lemma edit_goes_to_first_match_witness :
  exists r w' evs,
    reconcile_on GlobalTarget "ping" (slash None) remote_with_two_pings
    = (r, w') /\
    trace w' = trace remote_with_two_pings ++ evs /\
    calls evs
    = resolution GlobalTarget
      ++ [CommandsFetch GlobalTarget;
          CommandEdit GlobalTarget 5
            {| data_name := m_name (slash None);
               data_description := m_description (slash None);
               data_options := optionsTransformer (slash None);
               data_type := ChatInput |}].
Proof.
  apply (edit_goes_to_first_match GlobalTarget "ping" (slash None)
           remote_with_two_pings
           [{| entry_id := 3%N; entry_name := "help";
               entry_description := "Shows the commands";
               entry_type := ChatInput; entry_options := [] |}]
           [{| entry_id := 6%N; entry_name := "ping";
               entry_description := "Another pong";
               entry_type := ChatInput; entry_options := [] |}]
           {| entry_id := 5%N; entry_name := "ping";
              entry_description := "Replies with pong";
              entry_type := ChatInput; entry_options := [] |}).
  - reflexivity.
  - reflexivity.
  - constructor; [discriminate | constructor].
  - reflexivity.
Defined.

Lemma find_created (n : string) (cmds : list RemoteEntry) (e : RemoteEntry) :
  find (by_name n) cmds = None -> entry_name e = n ->
  find (by_name n) (cmds ++ [e]) = Some e.
Proof.
  intros Hnone He. induction cmds as [|x cmds IH]; simpl in *.
  - unfold by_name. rewrite He, String.eqb_refl. reflexivity.
  - destruct (by_name n x); [discriminate | apply IH, Hnone].
Qed.

(** Two discovered files that resolve to the same name give one command:
    on a remote that accepts every call and has no entry of that name, the
    first file creates the entry and the second, for which the entries are
    fetched again, edits the entry just created. *)
Theorem same_name_second_edits_first
    (path1 path2 n : string) (m1 m2 : CommandModule) (w : World) :
  accepting w ->
  publishable m1 = true -> publishable m2 = true ->
  resolveName m1 path1 = n -> resolveName m2 path2 = n ->
  find (by_name n) (application_commands w) = None ->
  exists w' evs,
    sync [] [(path1, Loaded m1); (path2, Loaded m2)] w = (Fulfilled tt, w') /\
    trace w' = trace w ++ evs /\
    calls evs
    = [CommandsFetch GlobalTarget;
       CommandsCreate GlobalTarget (create_data n m1);
       CommandsFetch GlobalTarget;
       CommandEdit GlobalTarget (next_id w) (edit_data m2)] /\
    length (application_commands w')
    = S (length (application_commands w)).
Proof.
  intros Ha Hp1 Hp2 Hn1 Hn2 Hnone.
  rewrite sync_unfold, !for_of_cons, sync_file_loaded, Hp1, Hn1,
    handleCommand_unfold.
  set (i := LogInfo "Syncing commands").
  set (d := LogDebug ("Checking if " ++ n ++ " is already registered")).
  set (w0 := record (record w [i]) [d]).
  destruct (handleGlobalCommand_run n m1 w0) as [evs1 Hrun1].
  unfold w0 at 1 2 in Hrun1. simpl refuses in Hrun1. rewrite !Ha in Hrun1.
  destruct Hrun1 as [Hc1 Hrun1]. rewrite Hrun1.
  rewrite for_of_cons, sync_file_loaded, Hp2, Hn2, handleCommand_unfold. fold d.
  set (w1 := record (record (after_write GlobalTarget n m1 w0 _) evs1) [d]).
  destruct (handleGlobalCommand_run n m2 w1) as [evs2 Hrun2].
  assert (forall r, refuses w1 r = None) as Ha1.
  { intros r. unfold w1, after_write. simpl application_commands.
    rewrite Hnone. apply Ha. }
  rewrite !Ha1 in Hrun2. destruct Hrun2 as [Hc2 Hrun2]. rewrite Hrun2.
  assert (application_commands w1
          = application_commands w
            ++ [new_entry (next_id w) n (create_data n m1)]) as Hcmds.
  { unfold w1, after_write. simpl application_commands. rewrite Hnone.
    reflexivity. }
  assert (find (by_name n) (application_commands w1)
          = Some (new_entry (next_id w) n (create_data n m1))) as Hfind.
  { rewrite Hcmds. apply find_created; [exact Hnone | reflexivity]. }
  eexists _, ([i; d] ++ evs1 ++ [d] ++ evs2). split; [reflexivity|].
  split; [|split].
  - rewrite trace_record, trace_after_write. unfold w1.
    rewrite !trace_record, trace_after_write. unfold w0.
    rewrite !trace_record, <- !app_assoc. reflexivity.
  - unfold calls in *. rewrite !flat_map_app. simpl.
    rewrite Hc1, Hc2. unfold write_request. rewrite Hfind.
    unfold w0. simpl application_commands. rewrite Hnone. reflexivity.
  - unfold after_write. rewrite Hfind. simpl application_commands.
    unfold edit_in. rewrite length_map.
    change (length (application_commands w1)
            = S (length (application_commands w))).
    rewrite Hcmds, length_app. simpl. lia.
Qed.

Lemma same_name_second_edits_first_witness :
  exists w' evs,
    sync [] [ping_js; other_ping_js] empty_remote = (Fulfilled tt, w') /\
    trace w' = trace empty_remote ++ evs /\
    calls evs
    = [CommandsFetch GlobalTarget;
       CommandsCreate GlobalTarget (create_data "ping" (slash None));
       CommandsFetch GlobalTarget;
       CommandEdit GlobalTarget (next_id empty_remote)
         (edit_data
            {| m_name := None; m_description := Some "Pong, for fun"%string;
               m_type := Slash; m_options := None |})] /\
    length (application_commands w')
    = S (length (application_commands empty_remote)).
Proof.
  apply (same_name_second_edits_first
           "/srv/bot/dist/src/commands/ping.js"
           "/srv/bot/dist/src/commands/fun/ping.js" "ping").
  - exact accepting_empty_remote.
  - reflexivity.
  - reflexivity.
  - reflexivity.
  - reflexivity.
  - reflexivity.
Defined.

(** ** No rollback *)

(** In a scoped handling, what was written to an earlier guild stays when a
    later guild cannot be resolved: the handling rejects with the error for
    the later guild, in the state the earlier guild's handling reached,
    and the remaining guilds are not tried. *)
Theorem later_guild_failure_keeps_earlier_writes
    (n : string) (m : CommandModule) (g1 g2 : string) (rest : list string)
    (w w1 : World) :
  handleScopedGuild n m g1 w = (Fulfilled tt, w1) ->
  (exists e, refuses w1 (GuildsFetch g2) = Some e) \/ guilds w1 !! g2 = None ->
  exists evs,
    handleScopedGuildsCommand (g1 :: g2 :: rest) n m w
    = (Rejected (VError ("Found no Guild with id " ++ g2 ++ "!")),
       record w1 evs) /\
    calls evs = [GuildsFetch g2] /\
    forall t, registry (record w1 evs) t = registry w1 t.
Proof.
  intros H1 H2. unfold handleScopedGuildsCommand.
  rewrite for_of_cons, H1, for_of_cons.
  destruct (handleScopedGuild_run n m g2 w1) as [evs Hrun].
  assert (resolved_guild w1 g2 = None) as Hg.
  { unfold resolved_guild. destruct H2 as [[e ->] | H2]; [reflexivity|].
    destruct (refuses w1 (GuildsFetch g2)); [reflexivity | exact H2]. }
  rewrite Hg in Hrun. destruct Hrun as [Hc Hrun]. exists evs.
  rewrite Hrun. split; [reflexivity|]. split; [exact Hc|].
  intros t. apply registry_record.
Qed.

Lemma later_guild_failure_keeps_earlier_writes_witness :
  exists evs,
    handleScopedGuildsCommand ["g2"; "g1"; "g3"]%string "ping" (slash None)
      remote_with_g2
    = (Rejected (VError ("Found no Guild with id " ++ "g1" ++ "!")),
       record (snd (handleScopedGuild "ping" (slash None) "g2" remote_with_g2))
         evs) /\
    calls evs = [GuildsFetch "g1"] /\
    forall t,
      registry
        (record (snd (handleScopedGuild "ping" (slash None) "g2" remote_with_g2))
           evs) t
      = registry (snd (handleScopedGuild "ping" (slash None) "g2" remote_with_g2))
          t.
Proof.
  apply (later_guild_failure_keeps_earlier_writes "ping" (slash None)
           "g2" "g1" ["g3"%string] remote_with_g2).
  - vm_compute. reflexivity.
  - right. vm_compute. reflexivity.
Defined.
